(** * An in-process publish/subscribe router for vending machines

    Shallow embedding of the final version of the program (the file with
    [PublishSubscribeService], its FIFO [_eventQueue] and the
    [_isPublishing] guard, the four subscriber classes and [Machine]),
    followed by the properties of the event-routing kernel and of the
    threshold detector.

    Conventions of the embedding.
    - JavaScript objects live in heaps and are named by their address;
      two references are the same object iff the addresses are equal.
      A heap is a list, an address is an index into it, allocation
      appends.  A reference that points nowhere cannot be built by the
      typed program; where a definition has to say something for it, it
      does nothing.
    - [number] is modelled by [Z]: every quantity the program uses is an
      integer.
    - [Map<string, _>] is a [gmap string _].
    - [console.log] has no effect on the state and is left out.
    - Loops that may run forever take a step budget; running out of it
      yields [Timeout] with the state reached so far. *)

From Stdlib Require Import ZArith Lia.
From stdpp Require Import base option list gmap strings fin_maps.

Local Open Scope string_scope.
Local Open Scope list_scope.
Local Open Scope nat_scope.

(** * Part I: the program *)

(** ** Events *)

(** [IEvent] and its four implementations.  [OtherEvent] stands for any
    further class implementing [IEvent]: all the router can see of it is
    what [type()] and [machineId()] return. *)
Inductive Event : Type :=
| MachineSaleEvent (_sold : Z) (_machineId : string)
| MachineRefillEvent (_refill : Z) (_machineId : string)
| LowStockWarningEvent (_machineId : string)
| StockLevelOkEvent (_machineId : string)
| OtherEvent (_type _machineId : string).

Definition type (e : Event) : string :=
  match e with
  | MachineSaleEvent _ _ => "sale"
  | MachineRefillEvent _ _ => "refill"
  | LowStockWarningEvent _ => "low_stock_warning"
  | StockLevelOkEvent _ => "stock_level_ok"
  | OtherEvent t _ => t
  end.

Definition machineId (e : Event) : string :=
  match e with
  | MachineSaleEvent _ m | MachineRefillEvent _ m
  | LowStockWarningEvent m | StockLevelOkEvent m | OtherEvent _ m => m
  end.

#[global] Instance Event_eq_dec : EqDecision Event.
Proof. solve_decision. Defined.

(** ** Machines and the object store *)

(** Addresses.  An abbreviation, so that the lemmas about [nat]-indexed
    lists apply as they are. *)
Abbreviation loc := nat.

Module Machine.
Record t : Type := mk { stockLevel : Z; id : string }.

(** [new Machine(id)]: the stock level starts at 10. *)
Definition new (i : string) : t := {| stockLevel := 10; id := i |}.

Definition add_stock (d : Z) (m : t) : t :=
  {| stockLevel := (stockLevel m + d)%Z; id := id m |}.
End Machine.

(** The instances of the four subscriber classes.  Three of them hold a
    reference to a [Machine[]]; the warning subscriber owns a map from
    machine id to the machine and the flag "warning has been sent". *)
Inductive Subscriber : Type :=
| MachineSaleSubscriber (machines : loc)
| MachineRefillSubscriber (machines : loc)
| StockWarningSubscriber (machines : gmap string (loc * bool))
| StockLoggerSubscriber (machines : loc).

Record Store : Type := mkStore {
  machine_heap : list Machine.t;
  array_heap : list (list loc);
  subscriber_heap : list Subscriber
}.

Definition set_machine_heap (f : list Machine.t → list Machine.t) (s : Store) : Store :=
  {| machine_heap := f (machine_heap s);
     array_heap := array_heap s;
     subscriber_heap := subscriber_heap s |}.

Definition set_array_heap (f : list (list loc) → list (list loc)) (s : Store) : Store :=
  {| machine_heap := machine_heap s;
     array_heap := f (array_heap s);
     subscriber_heap := subscriber_heap s |}.

Definition set_subscriber_heap (f : list Subscriber → list Subscriber) (s : Store) : Store :=
  {| machine_heap := machine_heap s;
     array_heap := array_heap s;
     subscriber_heap := f (subscriber_heap s) |}.

Definition empty_store : Store :=
  {| machine_heap := []; array_heap := []; subscriber_heap := [] |}.

(** [m.id] for the machine at address [m]. *)
Definition id_of (s : Store) (m : loc) : option string :=
  Machine.id <$> machine_heap s !! m.

(** [m.stockLevel]. *)
Definition stock_of (s : Store) (m : loc) : option Z :=
  Machine.stockLevel <$> machine_heap s !! m.

Definition new_Machine (i : string) (s : Store) : loc * Store :=
  (length (machine_heap s), set_machine_heap (λ h, h ++ [Machine.new i]) s).

(** An array literal [[m1, m2, ...]] or the result of [filter]. *)
Definition new_array (ms : list loc) (s : Store) : loc * Store :=
  (length (array_heap s), set_array_heap (λ h, h ++ [ms]) s).

Definition new_subscriber (o : Subscriber) (s : Store) : loc * Store :=
  (length (subscriber_heap s), set_subscriber_heap (λ h, h ++ [o]) s).

(** The constructors keep the array they are given: the sale, refill and
    logger subscribers of the program share one [Machine[]]. *)
Definition new_MachineSaleSubscriber (machines : loc) : Store → loc * Store :=
  new_subscriber (MachineSaleSubscriber machines).

Definition new_MachineRefillSubscriber (machines : loc) : Store → loc * Store :=
  new_subscriber (MachineRefillSubscriber machines).

Definition new_StockLoggerSubscriber (machines : loc) : Store → loc * Store :=
  new_subscriber (StockLoggerSubscriber machines).

(** [new Map(machines.map((m) => [m.id, [m, false]]))]: entries are set
    from left to right, a later machine with the same id wins. *)
Definition warning_map (s : Store) (ms : list loc) : gmap string (loc * bool) :=
  foldl (λ acc m, match id_of s m with
                  | Some i => <[i := (m, false)]> acc
                  | None => acc
                  end) ∅ ms.

Definition new_StockWarningSubscriber (machines : loc) (s : Store) : loc * Store :=
  new_subscriber
    (StockWarningSubscriber (warning_map s (default [] (array_heap s !! machines)))) s.

(** ** Scope management: [addMachine] and [removeMachine] *)

(** [this.machines.push(machine)] mutates the array in place, so every
    subscriber sharing it sees the new machine;
    [this.machines.set(machine.id, [machine, false])] for the warning
    subscriber. *)
Definition addMachine (self machine : loc) (s : Store) : Store :=
  match subscriber_heap s !! self with
  | Some (MachineSaleSubscriber ms)
  | Some (MachineRefillSubscriber ms)
  | Some (StockLoggerSubscriber ms) =>
      set_array_heap (alter (λ a, a ++ [machine]) ms) s
  | Some (StockWarningSubscriber mp) =>
      match id_of s machine with
      | Some i =>
          set_subscriber_heap
            (<[self := StockWarningSubscriber (<[i := (machine, false)]> mp)]>) s
      | None => s
      end
  | None => s
  end.

(** [this.machines.filter((m) => m.id !== machine.id)]: the elements of
    the array whose id differs from the id of [machine]. *)
Definition without_id (s : Store) (machine : loc) (a : list loc) : list loc :=
  filter (λ m, id_of s m ≠ id_of s machine) a.

(** [this.machines = this.machines.filter(...)] stores a new array in the
    field and leaves the old one as it was;
    [this.machines.delete(machine.id)] for the warning subscriber. *)
Definition removeMachine (self machine : loc) (s : Store) : Store :=
  match subscriber_heap s !! self with
  | Some (MachineSaleSubscriber ms) =>
      let '(a, s1) := new_array (without_id s machine (default [] (array_heap s !! ms))) s in
      set_subscriber_heap (<[self := MachineSaleSubscriber a]>) s1
  | Some (MachineRefillSubscriber ms) =>
      let '(a, s1) := new_array (without_id s machine (default [] (array_heap s !! ms))) s in
      set_subscriber_heap (<[self := MachineRefillSubscriber a]>) s1
  | Some (StockLoggerSubscriber ms) =>
      let '(a, s1) := new_array (without_id s machine (default [] (array_heap s !! ms))) s in
      set_subscriber_heap (<[self := StockLoggerSubscriber a]>) s1
  | Some (StockWarningSubscriber mp) =>
      match id_of s machine with
      | Some i =>
          set_subscriber_heap (<[self := StockWarningSubscriber (delete i mp)]>) s
      | None => s
      end
  | None => s
  end.

(** [getMachines()].  For the warning subscriber the order of the result
    is that of the map's keys here, not the order of insertion. *)
Definition getMachines (self : loc) (s : Store) : list loc :=
  match subscriber_heap s !! self with
  | Some (MachineSaleSubscriber ms)
  | Some (MachineRefillSubscriber ms)
  | Some (StockLoggerSubscriber ms) => default [] (array_heap s !! ms)
  | Some (StockWarningSubscriber mp) => (fst ∘ snd) <$> map_to_list mp
  | None => []
  end.

(** ** The [handle] methods of the four classes *)

(** What [handle] may return: nothing, one event, or an array of events. *)
Inductive Result : Type :=
| RVoid
| ROne (e : Event)
| RMany (es : list Event).

(** [this.machines.findIndex((m) => m.id === event.machineId())]:
    the index and the machine, or [None] for -1. *)
Definition findIndex (s : Store) (mid : string) (a : list loc) : option (nat * loc) :=
  list_find (λ m, id_of s m = Some mid) a.

(** [MachineSaleSubscriber.handle]. *)
Definition sale_handle (machines : loc) (event : Event) (s : Store) : Store :=
  match findIndex s (machineId event) (default [] (array_heap s !! machines)) with
  | None => s
  | Some (_, m) =>
      match event with
      | MachineSaleEvent sold _ =>
          set_machine_heap (alter (Machine.add_stock (- sold)) m) s
      | _ => s
      end
  end.

(** [MachineRefillSubscriber.handle]. *)
Definition refill_handle (machines : loc) (event : Event) (s : Store) : Store :=
  match findIndex s (machineId event) (default [] (array_heap s !! machines)) with
  | None => s
  | Some (_, m) =>
      match event with
      | MachineRefillEvent refill _ =>
          set_machine_heap (alter (Machine.add_stock refill) m) s
      | _ => s
      end
  end.

(** [StockWarningSubscriber.handle].  The event's class is not looked
    at; the emitted event carries [machine.id]. *)
Definition warning_handle (self : loc) (mp : gmap string (loc * bool))
    (event : Event) (s : Store) : Result * Store :=
  match mp !! machineId event with
  | None => (RVoid, s)
  | Some (machine, warned) =>
      match machine_heap s !! machine with
      | None => (RVoid, s)
      | Some M =>
          if (Machine.stockLevel M <? 3)%Z && negb warned then
            (ROne (LowStockWarningEvent (Machine.id M)),
             set_subscriber_heap
               (<[self := StockWarningSubscriber
                            (<[machineId event := (machine, true)]> mp)]>) s)
          else if (Machine.stockLevel M >=? 3)%Z && warned then
            (ROne (StockLevelOkEvent (Machine.id M)),
             set_subscriber_heap
               (<[self := StockWarningSubscriber
                            (<[machineId event := (machine, false)]> mp)]>) s)
          else (RVoid, s)
      end
  end.

(** [handle] of an instance of one of the four classes, by the class of
    the object at [self].  The logger only prints. *)
Definition object_handle (self : loc) (event : Event) (s : Store) : Result * Store :=
  match subscriber_heap s !! self with
  | Some (MachineSaleSubscriber ms) => (RVoid, sale_handle ms event s)
  | Some (MachineRefillSubscriber ms) => (RVoid, refill_handle ms event s)
  | Some (StockWarningSubscriber mp) => warning_handle self mp event s
  | Some (StockLoggerSubscriber _) => (RVoid, s)
  | None => (RVoid, s)
  end.

(** ** The router *)

(** The identity of a handler: an instance of one of the four classes
    ([Obj], by address) or an instance of any other class implementing
    [ISubscriber] ([Ext]). *)
Inductive ISubscriber : Type :=
| Obj (l : loc)
| Ext (n : nat).

#[global] Instance ISubscriber_eq_dec : EqDecision ISubscriber.
Proof. solve_decision. Defined.

(** [_subscribers] maps a type to an [ISubscriber[]] object;
    [handler_arrays] is the heap of these arrays.  [subscribe] pushes
    onto the array in place, [unsubscribe] stores a new one. *)
Record PublishSubscribeService : Type := mkService {
  _subscribers : gmap string loc;
  handler_arrays : list (list ISubscriber);
  _eventQueue : list Event;
  _isPublishing : bool
}.

(** [new PublishSubscribeService()]. *)
Definition new_PublishSubscribeService : PublishSubscribeService :=
  {| _subscribers := ∅; handler_arrays := []; _eventQueue := [];
     _isPublishing := false |}.

(** The handlers registered under a type, in registration order. *)
Definition handlers_of (ty : string) (r : PublishSubscribeService) : list ISubscriber :=
  match _subscribers r !! ty with
  | Some a => default [] (handler_arrays r !! a)
  | None => []
  end.

Definition subscribe (ty : string) (handler : ISubscriber)
    (r : PublishSubscribeService) : PublishSubscribeService :=
  let r1 :=
    match _subscribers r !! ty with
    | Some _ => r
    | None =>
        {| _subscribers := <[ty := length (handler_arrays r)]> (_subscribers r);
           handler_arrays := handler_arrays r ++ [[]];
           _eventQueue := _eventQueue r;
           _isPublishing := _isPublishing r |}
    end in
  match _subscribers r1 !! ty with
  | Some a =>
      {| _subscribers := _subscribers r1;
         handler_arrays := alter (λ hs, hs ++ [handler]) a (handler_arrays r1);
         _eventQueue := _eventQueue r1;
         _isPublishing := _isPublishing r1 |}
  | None => r1
  end.

Definition unsubscribe (ty : string) (handler : ISubscriber)
    (r : PublishSubscribeService) : PublishSubscribeService :=
  match _subscribers r !! ty with
  | None => r
  | Some a =>
      let handlers := handler_arrays r !! a in
      let filtered := default [] (filter (λ h, h ≠ handler) <$> handlers) in
      {| _subscribers := <[ty := length (handler_arrays r)]> (_subscribers r);
         handler_arrays := handler_arrays r ++ [filtered];
         _eventQueue := _eventQueue r;
         _isPublishing := _isPublishing r |}
  end.

(** *** Observation of a run

    [Ghost] records what happened and is never read by the program: the
    events pushed onto the queue, the events taken from it, the calls of
    [handle], each in order, and the number of [while] loops of
    [publish] that are running. *)
Record Ghost : Type := mkGhost {
  enqueued : list Event;
  dequeued : list Event;
  calls : list (ISubscriber * Event);
  drains : nat
}.

Definition no_ghost : Ghost :=
  {| enqueued := []; dequeued := []; calls := []; drains := 0 |}.

Record World : Type := mkWorld {
  router : PublishSubscribeService;
  store : Store;
  ghost : Ghost
}.

Definition set_router (f : PublishSubscribeService → PublishSubscribeService)
    (w : World) : World :=
  {| router := f (router w); store := store w; ghost := ghost w |}.

Definition set_store (f : Store → Store) (w : World) : World :=
  {| router := router w; store := f (store w); ghost := ghost w |}.

Definition set_ghost (f : Ghost → Ghost) (w : World) : World :=
  {| router := router w; store := store w; ghost := f (ghost w) |}.

(** [this._eventQueue.push(e)]. *)
Definition enqueue (e : Event) (w : World) : World :=
  {| router := {| _subscribers := _subscribers (router w);
                  handler_arrays := handler_arrays (router w);
                  _eventQueue := _eventQueue (router w) ++ [e];
                  _isPublishing := _isPublishing (router w) |};
     store := store w;
     ghost := {| enqueued := enqueued (ghost w) ++ [e];
                 dequeued := dequeued (ghost w);
                 calls := calls (ghost w);
                 drains := drains (ghost w) |} |}.

(** [this._eventQueue.shift()] on a queue with head [e] and tail [q]. *)
Definition shift (e : Event) (q : list Event) (w : World) : World :=
  {| router := {| _subscribers := _subscribers (router w);
                  handler_arrays := handler_arrays (router w);
                  _eventQueue := q;
                  _isPublishing := _isPublishing (router w) |};
     store := store w;
     ghost := {| enqueued := enqueued (ghost w);
                 dequeued := dequeued (ghost w) ++ [e];
                 calls := calls (ghost w);
                 drains := drains (ghost w) |} |}.

(** The moment [handler.handle(currentEvent)] is called. *)
Definition log_call (h : ISubscriber) (e : Event) (w : World) : World :=
  set_ghost (λ g, {| enqueued := enqueued g; dequeued := dequeued g;
                     calls := calls g ++ [(h, e)]; drains := drains g |}) w.

(** [this._isPublishing = true] and the [while] loop is entered. *)
Definition enter_drain (w : World) : World :=
  {| router := {| _subscribers := _subscribers (router w);
                  handler_arrays := handler_arrays (router w);
                  _eventQueue := _eventQueue (router w);
                  _isPublishing := true |};
     store := store w;
     ghost := {| enqueued := enqueued (ghost w); dequeued := dequeued (ghost w);
                 calls := calls (ghost w); drains := S (drains (ghost w)) |} |}.

(** The [while] loop is left. *)
Definition leave_drain (w : World) : World :=
  set_ghost (λ g, {| enqueued := enqueued g; dequeued := dequeued g;
                     calls := calls g; drains := pred (drains g) |}) w.

(** [this._isPublishing = false]. *)
Definition release (w : World) : World :=
  set_router (λ r, {| _subscribers := _subscribers r;
                      handler_arrays := handler_arrays r;
                      _eventQueue := _eventQueue r;
                      _isPublishing := false |}) w.

Definition events_of (r : Result) : list Event :=
  match r with
  | RVoid => []
  | ROne e => [e]
  | RMany es => es
  end.

(** [if (result) { if (Array.isArray(result)) push(...result) else
    push(result) }]. *)
Definition push_result (r : Result) (w : World) : World :=
  match r with
  | RVoid => w
  | RMany es => foldl (λ w e, enqueue e w) w es
  | ROne e => enqueue e w
  end.

(** *** Handlers written by the user

    The code of a handler of another class, as the sequence of what it
    does to the rest of the program: calls of the router's three
    methods, changes of the object store, and at the end a returned
    value or an exception. *)
Inductive Prog : Type :=
| Return (r : Result)
| Throw (err : string)
| Publish (e : Event) (k : Prog)
| Subscribe (ty : string) (h : ISubscriber) (k : Prog)
| Unsubscribe (ty : string) (h : ISubscriber) (k : Prog)
| Effect (f : Store → Store) (k : Prog).

Inductive Outcome (A : Type) : Type :=
| Normal (a : A) (w : World)
| Raise (err : string) (w : World)
| Timeout (w : World).
Arguments Normal {A} a w.
Arguments Raise {A} err w.
Arguments Timeout {A} w.

(** The code of the [Ext] handlers: what handler [n] does on an event
    may depend on the router and the store it finds. *)
Definition Code : Type := nat → Event → PublishSubscribeService → Store → Prog.

Section Drain.
Variable custom : Code.
(** [this.publish], for the calls a handler makes. *)
Variable pub : Event → World → Outcome unit.

Fixpoint exec (p : Prog) (w : World) : Outcome Result :=
  match p with
  | Return r => Normal r w
  | Throw err => Raise err w
  | Publish e k =>
      match pub e w with
      | Normal _ w1 => exec k w1
      | Raise err w1 => Raise err w1
      | Timeout w1 => Timeout w1
      end
  | Subscribe ty h k => exec k (set_router (subscribe ty h) w)
  | Unsubscribe ty h k => exec k (set_router (unsubscribe ty h) w)
  | Effect f k => exec k (set_store f w)
  end.

(** [handler.handle(event)]. *)
Definition handle (handler : ISubscriber) (event : Event) (w : World) : Outcome Result :=
  match handler with
  | Obj l =>
      let '(r, s) := object_handle l event (store w) in
      Normal r (set_store (λ _, s) w)
  | Ext n => exec (custom n event (router w) (store w)) w
  end.

(** [for (const handler of handlers) { ... }] from index [i] on.  The
    array iterator reads the array at [handlers] anew at every step. *)
Fixpoint for_handlers (n : nat) (handlers : loc) (i : nat)
    (currentEvent : Event) (w : World) : Outcome unit :=
  match n with
  | 0 => Timeout w
  | S n =>
      match handler_arrays (router w) !! handlers ≫= (.!! i) with
      | None => Normal tt w
      | Some handler =>
          match handle handler currentEvent (log_call handler currentEvent w) with
          | Normal result w1 =>
              for_handlers n handlers (S i) currentEvent (push_result result w1)
          | Raise err w1 => Raise err w1
          | Timeout w1 => Timeout w1
          end
      end
  end.

(** One turn of the [while] loop: [shift()] takes the head
    [currentEvent] off the queue [currentEvent :: q], then every
    handler of its type is called.  When the type has no entry,
    [|| []] makes an empty array nobody else can reach and the [for]
    loop has nothing to do. *)
Definition dispatch (n : nat) (currentEvent : Event) (q : list Event)
    (w : World) : Outcome unit :=
  let w1 := shift currentEvent q w in
  match _subscribers (router w1) !! type currentEvent with
  | None => Normal tt w1
  | Some handlers => for_handlers n handlers 0 currentEvent w1
  end.

(** [while (this._eventQueue.length > 0) { ... }]. *)
Fixpoint drain (n : nat) (w : World) : Outcome unit :=
  match n with
  | 0 => Timeout w
  | S n =>
      match _eventQueue (router w) with
      | [] => Normal tt w
      | currentEvent :: q =>
          match dispatch n currentEvent q w with
          | Normal _ w2 => drain n w2
          | Raise err w2 => Raise err w2
          | Timeout w2 => Timeout w2
          end
      end
  end.
End Drain.

(** [publish(event)]: push, return if the guard is set, else set it,
    drain, clear it.  An exception of a handler leaves [publish] at once:
    the [while] loop is over, the last line is not reached. *)
Fixpoint publish (custom : Code) (n : nat) (event : Event) (w : World) : Outcome unit :=
  match n with
  | 0 => Timeout w
  | S n =>
      let w1 := enqueue event w in
      if _isPublishing (router w1) then Normal tt w1
      else
        match drain custom (publish custom n) n (enter_drain w1) with
        | Normal _ w2 => Normal tt (release (leave_drain w2))
        | Raise err w2 => Raise err (leave_drain w2)
        | Timeout w2 => Timeout w2
        end
  end.

(** * Part II: notions used in the properties *)

(** ** Outcomes *)

(** What [publish] does while the guard is set: it only enqueues. *)
Definition pub_enq (e : Event) (w : World) : Outcome unit :=
  Normal tt (enqueue e w).

(** The state an outcome ends in. *)
Definition final {A : Type} (o : Outcome A) : World :=
  match o with
  | Normal _ w | Raise _ w | Timeout w => w
  end.

(** The run came to an end, normally or with an exception. *)
Definition settled {A : Type} (o : Outcome A) : Prop :=
  match o with
  | Timeout _ => False
  | _ => True
  end.

(** ** Properties kept by the steps of a run *)

(** [P] is kept by whatever happens while [handle] runs and when its
    result is pushed. *)
Record handler_closed (P : World → Prop) : Prop := {
  closed_enqueue : ∀ e w, P w → P (enqueue e w);
  closed_call : ∀ h e w, P w → P (log_call h e w);
  closed_subscribe : ∀ ty h w, P w → P (set_router (subscribe ty h) w);
  closed_unsubscribe : ∀ ty h w, P w → P (set_router (unsubscribe ty h) w);
  closed_store : ∀ f w, P w → P (set_store f w)
}.

(** [P] is kept by every step of the [while] loop. *)
Record step_closed (P : World → Prop) : Prop := {
  closed_handler : handler_closed P;
  closed_shift : ∀ e q w, P w → _eventQueue (router w) = e :: q → P (shift e q w)
}.

(** The code neither throws nor calls [subscribe]; it may publish,
    unsubscribe and change the store. *)
Fixpoint tame (p : Prog) : Prop :=
  match p with
  | Return _ => True
  | Throw _ => False
  | Subscribe _ _ _ => False
  | Publish _ k | Unsubscribe _ _ k | Effect _ k => tame k
  end.

(** The code calls [unsubscribe(ty, h)]. *)
Fixpoint unsubscribes (ty : string) (h : ISubscriber) (p : Prog) : Prop :=
  match p with
  | Return _ | Throw _ => False
  | Unsubscribe ty' h' k => (ty' = ty ∧ h' = h) ∨ unsubscribes ty h k
  | Publish _ k | Subscribe _ _ k | Effect _ k => unsubscribes ty h k
  end.

(** [P] is kept by what tame code does. *)
Record tame_closed (P : World → Prop) : Prop := {
  tame_enqueue : ∀ e w, P w → P (enqueue e w);
  tame_unsubscribe : ∀ ty h w, P w → P (set_router (unsubscribe ty h) w);
  tame_store : ∀ f w, P w → P (set_store f w)
}.

(** ** The queue, the guard and the registry *)

(** The queue holds exactly the events that were enqueued and not yet
    taken, in the order of their arrival. *)
Definition fifo (w : World) : Prop :=
  enqueued (ghost w) = dequeued (ghost w) ++ _eventQueue (router w).

(** The guard tells the truth: it is set exactly while one [while] loop
    runs, and no second loop runs. *)
Definition guard_ok (w : World) : Prop :=
  drains (ghost w) = if _isPublishing (router w) then 1 else 0.

(** No call of [publish] is running: the guard is clear, the queue is
    empty, no loop runs. *)
Definition at_rest (w : World) : Prop :=
  _isPublishing (router w) = false
  ∧ _eventQueue (router w) = []
  ∧ drains (ghost w) = 0.

(** Every entry of [_subscribers] points to an array that exists. *)
Definition router_wf (r : PublishSubscribeService) : Prop :=
  ∀ ty a, _subscribers r !! ty = Some a → a < length (handler_arrays r).

(** ** What the program can see of a state *)

(** The same router and the same store. *)
Definition same_program_state (w1 w2 : World) : Prop :=
  router w1 = router w2 ∧ store w1 = store w2.

(** The same kind of end, the same value, the same router and store. *)
Definition same_outcome {A : Type} (o1 o2 : Outcome A) : Prop :=
  match o1, o2 with
  | Normal a1 w1, Normal a2 w2 => a1 = a2 ∧ same_program_state w1 w2
  | Raise e1 w1, Raise e2 w2 => e1 = e2 ∧ same_program_state w1 w2
  | Timeout w1, Timeout w2 => same_program_state w1 w2
  | _, _ => False
  end.

(** ** Machines, scopes and classes *)

(** The flag the warning subscriber at [self] keeps for the machine id
    [mid]: [true] is WARNED, [false] is OK. *)
Definition warned (self : loc) (mid : string) (s : Store) : option bool :=
  match subscriber_heap s !! self with
  | Some (StockWarningSubscriber mp) => snd <$> mp !! mid
  | _ => None
  end.

(** The map of the warning subscriber at [self]. *)
Definition warning_state (self : loc) (s : Store) : gmap string (loc * bool) :=
  match subscriber_heap s !! self with
  | Some (StockWarningSubscriber mp) => mp
  | _ => ∅
  end.

(** The stock level of the first machine with id [mid] in the store. *)
Definition level (mid : string) (s : Store) : option Z :=
  Machine.stockLevel <$> (snd <$> list_find (λ M, Machine.id M = mid) (machine_heap s)).

(** Every entry of the warning subscriber's map is kept under the id of
    its machine.  The constructor and [addMachine] make it so, and no
    code changes the id of a machine. *)
Definition keyed_by_id (self : loc) (s : Store) : Prop :=
  ∀ mp k m b,
    subscriber_heap s !! self = Some (StockWarningSubscriber mp) →
    mp !! k = Some (m, b) → id_of s m = Some k.

(** The machine id [mid] names a machine in the scope of the object at
    [self]: an element of its array, or a key of the warning
    subscriber's map. *)
Definition knows (self : loc) (mid : string) (s : Store) : Prop :=
  match subscriber_heap s !! self with
  | Some (StockWarningSubscriber mp) => is_Some (mp !! mid)
  | Some (MachineSaleSubscriber ms)
  | Some (MachineRefillSubscriber ms)
  | Some (StockLoggerSubscriber ms) =>
      ∃ m, m ∈ default [] (array_heap s !! ms) ∧ id_of s m = Some mid
  | None => False
  end.

(** [this.machines[machineIndex]] of a sale, refill or logger subscriber
    for the id [mid]. *)
Definition finds (self : loc) (mid : string) (s : Store) : option loc :=
  snd <$> findIndex s mid (getMachines self s).

Inductive Kind : Type := KSale | KRefill | KWarning | KLogger.

#[global] Instance Kind_eq_dec : EqDecision Kind.
Proof. solve_decision. Defined.

Definition kind_of (o : Subscriber) : Kind :=
  match o with
  | MachineSaleSubscriber _ => KSale
  | MachineRefillSubscriber _ => KRefill
  | StockWarningSubscriber _ => KWarning
  | StockLoggerSubscriber _ => KLogger
  end.

(** The class of the object at [l]. *)
Definition kind_at (s : Store) (l : loc) : option Kind :=
  kind_of <$> subscriber_heap s !! l.

(** Only a sale subscriber given a [MachineSaleEvent] and a refill
    subscriber given a [MachineRefillEvent] write a stock level. *)
Definition moves_stock (k : option Kind) (ev : Event) : bool :=
  match k, ev with
  | Some KSale, MachineSaleEvent _ _ => true
  | Some KRefill, MachineRefillEvent _ _ => true
  | _, _ => false
  end.

(** The events made by the warning subscriber. *)
Definition is_derived (e : Event) : bool :=
  match e with
  | LowStockWarningEvent _ | StockLevelOkEvent _ => true
  | _ => false
  end.

(** What the warning subscriber returns when it reads the level [lvl]
    for a machine with id [mid] whose flag is [b]. *)
Definition crossing (lvl : Z) (b : bool) (mid : string) : list Event :=
  if (lvl <? 3)%Z && negb b then [LowStockWarningEvent mid]
  else if (lvl >=? 3)%Z && b then [StockLevelOkEvent mid]
  else [].

(** ** Dispatch to instances of the four classes

    These handlers never call the router, never throw and return at
    most one event, so the [for] loop over them can be written down at
    once. *)

(** The events [es] are pushed onto the queue. *)
Definition add_events (es : list Event) (w : World) : World :=
  {| router := {| _subscribers := _subscribers (router w);
                  handler_arrays := handler_arrays (router w);
                  _eventQueue := _eventQueue (router w) ++ es;
                  _isPublishing := _isPublishing (router w) |};
     store := store w;
     ghost := {| enqueued := enqueued (ghost w) ++ es;
                 dequeued := dequeued (ghost w);
                 calls := calls (ghost w);
                 drains := drains (ghost w) |} |}.

(** The calls of [handle] on the objects [ls], one after the other: the
    events they return and the store they leave. *)
Fixpoint handle_objects (ls : list loc) (ev : Event) (s : Store) : list Event * Store :=
  match ls with
  | [] => ([], s)
  | l :: ls =>
      let '(r, s1) := object_handle l ev s in
      let '(es, s2) := handle_objects ls ev s1 in
      (events_of r ++ es, s2)
  end.

(** The state after the [for] loop has called the objects [ls]. *)
Definition run_objects (ls : list loc) (ev : Event) (w : World) : World :=
  {| router := {| _subscribers := _subscribers (router w);
                  handler_arrays := handler_arrays (router w);
                  _eventQueue :=
                    _eventQueue (router w) ++ fst (handle_objects ls ev (store w));
                  _isPublishing := _isPublishing (router w) |};
     store := snd (handle_objects ls ev (store w));
     ghost := {| enqueued := enqueued (ghost w) ++ fst (handle_objects ls ev (store w));
                 dequeued := dequeued (ghost w);
                 calls := calls (ghost w) ++ ((λ l, (Obj l, ev)) <$> ls);
                 drains := drains (ghost w) |} |}.

(** The router at rest again after the event [ev] has been published,
    taken from the queue and handed to the objects [ls], which returned
    nothing and left the store [s']. *)
Definition delivered (ev : Event) (ls : list loc) (s' : Store) (w : World) : World :=
  {| router := router w;
     store := s';
     ghost := {| enqueued := enqueued (ghost w) ++ [ev];
                 dequeued := dequeued (ghost w) ++ [ev];
                 calls := calls (ghost w) ++ ((λ l, (Obj l, ev)) <$> ls);
                 drains := drains (ghost w) |} |}.

(** ** The sale, refill and warning subscribers together *)

(** The program's wiring around one machine: the router is at rest; the
    sale subscriber [sale] and then the warning subscriber [warn] are
    registered under "sale", the refill subscriber [refill] and then
    [warn] under "refill"; [sale], [refill] and [warn] all mean the
    machine object [m] by the id [mid]; [m] holds [lvl] units and [warn]
    has the flag [b] for it; the derived events go to the handlers [llow]
    and [lok], none of them a warning subscriber. *)
Record shop (sale refill warn m : loc) (mid : string) (lvl : Z) (b : bool)
    (llow lok : list loc) (w : World) : Prop := {
  shop_guard : _isPublishing (router w) = false;
  shop_queue : _eventQueue (router w) = [];
  shop_sale : handlers_of "sale" (router w) = [Obj sale; Obj warn];
  shop_refill : handlers_of "refill" (router w) = [Obj refill; Obj warn];
  shop_low : handlers_of "low_stock_warning" (router w) = Obj <$> llow;
  shop_ok : handlers_of "stock_level_ok" (router w) = Obj <$> lok;
  shop_low_quiet : Forall (λ l, kind_at (store w) l ≠ Some KWarning) llow;
  shop_ok_quiet : Forall (λ l, kind_at (store w) l ≠ Some KWarning) lok;
  shop_S : kind_at (store w) sale = Some KSale;
  shop_S_finds : finds sale mid (store w) = Some m;
  shop_R : kind_at (store w) refill = Some KRefill;
  shop_R_finds : finds refill mid (store w) = Some m;
  shop_W : warning_state warn (store w) !! mid = Some (m, b);
  shop_level :
    machine_heap (store w) !! m = Some {| Machine.stockLevel := lvl; Machine.id := mid |}
}.

(** At most one [while] loop runs, and only while the guard is set.
    Unlike [guard_ok] this also holds after a call of [publish] was
    left through an exception, when the guard is set and no loop runs. *)
Definition guard_sound (w : World) : Prop :=
  drains (ghost w) ≤ if _isPublishing (router w) then 1 else 0.

(** ** What a handler produces, and runs of the two loops *)

(** The events the code puts on the queue when it runs while the guard
    is set: those it publishes, in order, and then, when it comes to its
    [return], those it returns. *)
Fixpoint emits (p : Prog) : list Event :=
  match p with
  | Return r => events_of r
  | Throw _ => []
  | Publish e k => e :: emits k
  | Subscribe _ _ k | Unsubscribe _ _ k | Effect _ k => emits k
  end.

(** What the handler [h] produces when it is called for [ev] in the
    state [w]. *)
Definition emits_of (custom : Code) (h : ISubscriber) (ev : Event) (w : World)
    : list Event :=
  match h with
  | Obj l => events_of (fst (object_handle l ev (store w)))
  | Ext k => emits (custom k ev (router w) (store w))
  end.

(** The [for] loop over the array [a] for the event [ev], begun at the
    index [i] in the state [w], comes to the index [j] in the state
    [w']: the handlers at the indices in between were called one after
    the other, each returned, and what it returned was pushed.  [tr]
    lists the handlers called, each with what it produced in the state
    it was called in. *)
Inductive for_reaches (custom : Code) (pub : Event → World → Outcome unit)
    (a : loc) (ev : Event)
    : nat → World → list (ISubscriber * list Event) → nat → World → Prop :=
| for_here i w : for_reaches custom pub a ev i w [] i w
| for_next i w h r w1 tr j w' :
    handler_arrays (router w) !! a ≫= (.!! i) = Some h →
    handle custom pub h ev (log_call h ev w) = Normal r w1 →
    for_reaches custom pub a ev (S i) (push_result r w1) tr j w' →
    for_reaches custom pub a ev i w ((h, emits_of custom h ev w) :: tr) j w'.

(** One turn of the [while] loop after [shift()], from the state [w] to
    the state [w']: the type of the event has no entry, or the [for]
    loop over its array came to the end of the array. *)
Inductive turn (custom : Code) (pub : Event → World → Outcome unit)
    (ev : Event) (w : World) : list (ISubscriber * list Event) → World → Prop :=
| turn_skip :
    _subscribers (router w) !! type ev = None →
    turn custom pub ev w [] w
| turn_run a tr j w' :
    _subscribers (router w) !! type ev = Some a →
    for_reaches custom pub a ev 0 w tr j w' →
    handler_arrays (router w') !! a ≫= (.!! j) = None →
    turn custom pub ev w tr w'.

(** The [while] loop, begun in the state [w], comes to the top of the
    loop in the state [w']: the events in between were taken one after
    the other, and for each of them every handler returned. *)
Inductive while_reaches (custom : Code) (pub : Event → World → Outcome unit)
    : World → World → Prop :=
| while_here w : while_reaches custom pub w w
| while_next w e q tr w1 w' :
    _eventQueue (router w) = e :: q →
    turn custom pub e (shift e q w) tr w1 →
    while_reaches custom pub w1 w' →
    while_reaches custom pub w w'.

(** The trace of the [for] loop, computed along with it. *)
Fixpoint for_trace (custom : Code) (pub : Event → World → Outcome unit)
    (n : nat) (a : loc) (i : nat) (ev : Event) (w : World)
    : list (ISubscriber * list Event) :=
  match n with
  | 0 => []
  | S n =>
      match handler_arrays (router w) !! a ≫= (.!! i) with
      | None => []
      | Some h =>
          match handle custom pub h ev (log_call h ev w) with
          | Normal r w1 =>
              (h, emits_of custom h ev w)
              :: for_trace custom pub n a (S i) ev (push_result r w1)
          | _ => []
          end
      end
  end.

Definition trace (custom : Code) (pub : Event → World → Outcome unit)
    (n : nat) (ev : Event) (w : World) : list (ISubscriber * list Event) :=
  match _subscribers (router w) !! type ev with
  | None => []
  | Some a => for_trace custom pub n a 0 ev w
  end.

(** The events of a trace, in the order they were put on the queue. *)
Definition produced (tr : list (ISubscriber * list Event)) : list Event :=
  concat (snd <$> tr).

(** * Part III: the program's set-up and small routers *)

(** ** The program's machines, subscribers and subscriptions *)

(** No handler of another class. *)
Definition no_code : Code := λ _ _ _ _, Return RVoid.

(** The set-up of the program: three machines with ten units each in one
    array shared by the sale, refill and logger subscribers, a warning
    subscriber built from the same array, and the six subscriptions in
    the program's order. *)
Definition program_store : Store * (loc * loc * loc * loc) :=
  let '(m1, s) := new_Machine "001" empty_store in
  let '(m2, s) := new_Machine "002" s in
  let '(m3, s) := new_Machine "003" s in
  let '(machines, s) := new_array [m1; m2; m3] s in
  let '(saleSubscriber, s) := new_MachineSaleSubscriber machines s in
  let '(refillSubscriber, s) := new_MachineRefillSubscriber machines s in
  let '(stockWarningSubscriber, s) := new_StockWarningSubscriber machines s in
  let '(stockLoggerSubscriber, s) := new_StockLoggerSubscriber machines s in
  (s, (saleSubscriber, refillSubscriber, stockWarningSubscriber, stockLoggerSubscriber)).

Definition saleSubscriber : loc := fst (fst (fst (snd program_store))).

Definition refillSubscriber : loc := snd (fst (fst (snd program_store))).

Definition stockWarningSubscriber : loc := snd (fst (snd program_store)).

Definition stockLoggerSubscriber : loc := snd (snd program_store).

Definition program_world : World :=
  let r := new_PublishSubscribeService in
  let r := subscribe "sale" (Obj saleSubscriber) r in
  let r := subscribe "refill" (Obj refillSubscriber) r in
  let r := subscribe "sale" (Obj stockWarningSubscriber) r in
  let r := subscribe "refill" (Obj stockWarningSubscriber) r in
  let r := subscribe "low_stock_warning" (Obj stockLoggerSubscriber) r in
  let r := subscribe "stock_level_ok" (Obj stockLoggerSubscriber) r in
  {| router := r; store := fst program_store; ghost := no_ghost |}.

(** The program's first test: three sales on machine 001. *)
Definition test1_sale1 : World :=
  final (publish no_code 8 (MachineSaleEvent 4 "001") program_world).

Definition test1_sale2 : World :=
  final (publish no_code 8 (MachineSaleEvent 4 "001") test1_sale1).

Definition test1_sale3 : World :=
  final (publish no_code 8 (MachineSaleEvent 1 "001") test1_sale2).

(** The second test: two refills on machine 001, after the first test. *)
Definition test2_refill1 : World :=
  final (publish no_code 8 (MachineRefillEvent 2 "001") test1_sale3).

Definition test2_refill2 : World :=
  final (publish no_code 8 (MachineRefillEvent 5 "001") test2_refill1).

(** A second [Machine] object with the id of the program's first
    machine, made after the program's set-up. *)
Definition twin_store : Store := snd (new_Machine "001" (fst program_store)).

Definition twin : loc := fst (new_Machine "001" (fst program_store)).

(** The program's fourth test, for machine 001: it is removed from the
    sale subscriber, which alone is subscribed to "sale". *)
Definition removed_world : World :=
  {| router := subscribe "sale" (Obj saleSubscriber) new_PublishSubscribeService;
     store := removeMachine saleSubscriber 0 (fst program_store);
     ghost := no_ghost |}.

(** ** Routers with handlers of other classes *)

(** Three events; the handlers of the events of type ["a"] return
    [ev_C]; a drain that stands at a queue holding [ev_A], then [ev_B]. *)
Definition ev_A : Event := OtherEvent "a" "001".

Definition ev_B : Event := OtherEvent "b" "001".

Definition ev_C : Event := OtherEvent "c" "001".

Definition abc_code : Code := λ _ ev _ _,
  if decide (type ev = "a") then Return (ROne ev_C) else Return RVoid.

Definition abc_world : World :=
  {| router := {| _subscribers := {[ "a" := 0 ]};
                  handler_arrays := [[Ext 0]];
                  _eventQueue := [ev_A; ev_B];
                  _isPublishing := true |};
     store := empty_store;
     ghost := {| enqueued := [ev_A; ev_B]; dequeued := []; calls := [];
                 drains := 1 |} |}.

(** A router at rest with one handler, for events of type ["a"]. *)
Definition rest_world : World :=
  {| router := subscribe "a" (Ext 0) new_PublishSubscribeService;
     store := empty_store;
     ghost := no_ghost |}.

(** A handler that throws. *)
Definition boom_code : Code := λ _ _ _ _, Throw "boom".

Definition boom_world : World :=
  {| router := subscribe "x" (Ext 0) new_PublishSubscribeService;
     store := empty_store;
     ghost := no_ghost |}.

Definition after_boom : World :=
  final (publish boom_code 3 (OtherEvent "x" "001") boom_world).

(** Two handlers for the type ["x"]: the first returns an event, the
    second throws. *)
Definition fail_code : Code := λ n _ _ _,
  match n with
  | 0 => Return (ROne (OtherEvent "y" "001"))
  | _ => Throw "boom"
  end.

Definition fail_world : World :=
  {| router := subscribe "y" (Ext 2)
                 (subscribe "x" (Ext 1)
                    (subscribe "x" (Ext 0) new_PublishSubscribeService));
     store := empty_store;
     ghost := no_ghost |}.

Definition after_fail : World :=
  final (publish fail_code 4 (OtherEvent "x" "001") fail_world).

(** Two handlers for the type ["x"]; the first removes the second from
    that type when it is called. *)
Definition unsub_code : Code := λ k _ _ _,
  match k with
  | 0 => Unsubscribe "x" (Ext 1) (Return RVoid)
  | _ => Return RVoid
  end.

Definition unsub_world : World :=
  {| router := {| _subscribers := {[ "x" := 0 ]};
                  handler_arrays := [[Ext 0; Ext 1]];
                  _eventQueue := [OtherEvent "x" "001"; OtherEvent "x" "002"];
                  _isPublishing := true |};
     store := empty_store;
     ghost := {| enqueued := [OtherEvent "x" "001"; OtherEvent "x" "002"];
                 dequeued := []; calls := []; drains := 1 |} |}.

(** [subscribe] pushes onto the array the [for] loop runs over: a
    handler subscribed to the type of the event in flight is called for
    that event. *)
Definition sub_code : Code := λ k _ _ _,
  match k with
  | 0 => Subscribe "x" (Ext 1) (Return RVoid)
  | _ => Return RVoid
  end.

Definition sub_world : World :=
  {| router := {| _subscribers := {[ "x" := 0 ]};
                  handler_arrays := [[Ext 0]];
                  _eventQueue := [OtherEvent "x" "001"];
                  _isPublishing := true |};
     store := empty_store;
     ghost := {| enqueued := [OtherEvent "x" "001"];
                 dequeued := []; calls := []; drains := 1 |} |}.











(** The handler of the events of type ["x"] returns an event of type
    ["y"], which has two handlers: the first returns, the second
    throws. *)
Definition late_code : Code := λ k _ _ _,
  match k with
  | 0 => Return (ROne (OtherEvent "y" "001"))
  | 1 => Return RVoid
  | _ => Throw "late"
  end.

Definition late_world : World :=
  {| router := subscribe "y" (Ext 2)
                 (subscribe "y" (Ext 1)
                    (subscribe "x" (Ext 0) new_PublishSubscribeService));
     store := empty_store;
     ghost := no_ghost |}.

Definition after_late : World :=
  final (publish late_code 6 (OtherEvent "x" "001") late_world).

(** * Part IV: properties *)

(** ** Elementary facts about the steps of the router *)

Lemma queue_enqueue e w :
  _eventQueue (router (enqueue e w)) = _eventQueue (router w) ++ [e].
Proof. reflexivity. Qed.

Lemma queue_push_result r w :
  _eventQueue (router (push_result r w)) = _eventQueue (router w) ++ events_of r.
Proof.
  destruct r as [|e|es]; simpl.
  - by rewrite app_nil_r.
  - reflexivity.
  - revert w. induction es as [|e es IH]; intros w; simpl.
    + by rewrite app_nil_r.
    + rewrite IH. simpl. by rewrite <- app_assoc.
Qed.

Lemma enqueued_push_result r w :
  enqueued (ghost (push_result r w)) = enqueued (ghost w) ++ events_of r.
Proof.
  destruct r as [|e|es]; simpl.
  - by rewrite app_nil_r.
  - reflexivity.
  - revert w. induction es as [|e es IH]; intros w; simpl.
    + by rewrite app_nil_r.
    + rewrite IH. simpl. by rewrite <- app_assoc.
Qed.

Lemma subscribe_queue ty h r : _eventQueue (subscribe ty h r) = _eventQueue r.
Proof.
  unfold subscribe. destruct (_subscribers r !! ty) as [a|] eqn:E; simpl.
  - by rewrite E.
  - by rewrite lookup_insert_eq.
Qed.

Lemma subscribe_guard ty h r : _isPublishing (subscribe ty h r) = _isPublishing r.
Proof.
  unfold subscribe. destruct (_subscribers r !! ty) as [a|] eqn:E; simpl.
  - by rewrite E.
  - by rewrite lookup_insert_eq.
Qed.

Lemma unsubscribe_queue ty h r : _eventQueue (unsubscribe ty h r) = _eventQueue r.
Proof. unfold unsubscribe. by destruct (_subscribers r !! ty). Qed.

Lemma unsubscribe_guard ty h r : _isPublishing (unsubscribe ty h r) = _isPublishing r.
Proof. unfold unsubscribe. by destruct (_subscribers r !! ty). Qed.

(** ** Properties kept by every step a handler can cause *)

Section HandlerClosed.
Variable custom : Code.
Variable P : World → Prop.
Hypothesis HP : handler_closed P.

Lemma push_result_closed r w : P w → P (push_result r w).
Proof.
  destruct r as [|e|es]; simpl; [done|by apply closed_enqueue|].
  revert w. induction es as [|e es IH]; intros w Hw; simpl; [done|].
  apply IH. by apply closed_enqueue.
Qed.

Lemma exec_closed p w : P w → P (final (exec pub_enq p w)).
Proof.
  revert w. induction p as [r|err|e k IH|ty h k IH|ty h k IH|f k IH];
    intros w Hw; simpl; auto.
  - apply IH. by apply closed_enqueue.
  - apply IH. by apply closed_subscribe.
  - apply IH. by apply closed_unsubscribe.
  - apply IH. by apply closed_store.
Qed.

Lemma handle_closed h e w : P w → P (final (handle custom pub_enq h e w)).
Proof.
  intros Hw. destruct h as [l|n]; simpl.
  - destruct (object_handle l e (store w)) as [r s]. simpl.
    by apply (closed_store P HP (λ _, s)).
  - by apply exec_closed.
Qed.

Lemma for_handlers_closed n a i e w :
  P w → P (final (for_handlers custom pub_enq n a i e w)).
Proof.
  revert i w. induction n as [|n IH]; intros i w Hw; simpl; [done|].
  destruct (handler_arrays (router w) !! a ≫= (.!! i)) as [h|]; [|done].
  pose proof (handle_closed h e (log_call h e w)
                (closed_call P HP h e w Hw)) as Hh.
  destruct (handle custom pub_enq h e (log_call h e w)) as [r w1|err w1|w1];
    simpl in *; auto.
  apply IH. by apply push_result_closed.
Qed.
End HandlerClosed.

Section StepClosed.
Variable custom : Code.
Variable P : World → Prop.
Hypothesis HP : step_closed P.

Lemma dispatch_closed n e q w :
  P w → _eventQueue (router w) = e :: q →
  P (final (dispatch custom pub_enq n e q w)).
Proof.
  intros Hw Hq. unfold dispatch.
  pose proof (closed_shift P HP e q w Hw Hq) as Hs.
  destruct (_subscribers (router (shift e q w)) !! type e); [|done].
  apply for_handlers_closed; [apply HP|done].
Qed.

Lemma drain_closed n w : P w → P (final (drain custom pub_enq n w)).
Proof.
  revert w. induction n as [|n IH]; intros w Hw; simpl; [done|].
  destruct (_eventQueue (router w)) as [|e q] eqn:Hq; [done|].
  pose proof (dispatch_closed n e q w Hw Hq) as Hd.
  destruct (dispatch custom pub_enq n e q w) as [[] w2|err w2|w2];
    simpl in *; auto.
Qed.
End StepClosed.

Lemma fifo_closed : step_closed fifo.
Proof.
  unfold fifo. split; [split|]; simpl.
  - intros e w ->. by rewrite app_assoc.
  - done.
  - intros ty h w ->. by rewrite subscribe_queue.
  - intros ty h w ->. by rewrite unsubscribe_queue.
  - done.
  - intros e q w -> ->. by rewrite <- app_assoc.
Qed.

Lemma guard_closed b : step_closed (λ w, _isPublishing (router w) = b).
Proof.
  split; [split|]; simpl; try done.
  - intros ty h w <-. apply subscribe_guard.
  - intros ty h w <-. apply unsubscribe_guard.
Qed.

Lemma drains_closed d : step_closed (λ w, drains (ghost w) = d).
Proof. split; [split|]; simpl; done. Qed.

Lemma handler_closed_and P Q :
  handler_closed P → handler_closed Q → handler_closed (λ w, P w ∧ Q w).
Proof. intros [] []. split; intros; destruct_and?; split; eauto. Qed.

Lemma step_closed_and P Q : step_closed P → step_closed Q → step_closed (λ w, P w ∧ Q w).
Proof.
  intros [HP HPs] [HQ HQs]. split; [by apply handler_closed_and|].
  intros e q w [] Hq. split; eauto.
Qed.

(** ** Calls of [publish] from inside a handler *)

Lemma publish_reentrant custom n e w :
  _isPublishing (router w) = true →
  publish custom (S n) e w = Normal tt (enqueue e w).
Proof. intros H. simpl. by rewrite H. Qed.

Section Reentrant.
Variable custom : Code.
Variable m : nat.

Lemma exec_reentrant p w :
  _isPublishing (router w) = true →
  exec (publish custom (S m)) p w = exec pub_enq p w.
Proof.
  revert w. induction p as [r|err|e k IH|ty h k IH|ty h k IH|f k IH];
    intros w Hw; try reflexivity.
  - cbn [exec]. rewrite publish_reentrant by done. unfold pub_enq.
    by apply IH.
  - cbn [exec]. apply IH. simpl. by rewrite subscribe_guard.
  - cbn [exec]. apply IH. simpl. by rewrite unsubscribe_guard.
  - cbn [exec]. by apply IH.
Qed.

Lemma handle_reentrant h e w :
  _isPublishing (router w) = true →
  handle custom (publish custom (S m)) h e w = handle custom pub_enq h e w.
Proof. intros Hw. destruct h; [done|]. by apply exec_reentrant. Qed.

Lemma for_handlers_reentrant n a i e w :
  _isPublishing (router w) = true →
  for_handlers custom (publish custom (S m)) n a i e w
  = for_handlers custom pub_enq n a i e w.
Proof.
  revert i w. induction n as [|n IH]; intros i w Hw; [done|].
  cbn [for_handlers].
  destruct (handler_arrays (router w) !! a ≫= (.!! i)) as [h|]; [|done].
  rewrite handle_reentrant by done.
  pose proof (handle_closed custom _ (closed_handler _ (guard_closed true))
                h e (log_call h e w) Hw) as Hh.
  destruct (handle custom pub_enq h e (log_call h e w)) as [r w1|err w1|w1];
    try done.
  apply IH. by apply (push_result_closed _ (closed_handler _ (guard_closed true))).
Qed.

Lemma dispatch_reentrant n e q w :
  _isPublishing (router w) = true →
  dispatch custom (publish custom (S m)) n e q w = dispatch custom pub_enq n e q w.
Proof.
  intros Hw. unfold dispatch.
  destruct (_subscribers (router (shift e q w)) !! type e); [|done].
  by apply for_handlers_reentrant.
Qed.

Lemma drain_reentrant n w :
  _isPublishing (router w) = true →
  drain custom (publish custom (S m)) n w = drain custom pub_enq n w.
Proof.
  revert w. induction n as [|n IH]; intros w Hw; [done|].
  cbn [drain].
  destruct (_eventQueue (router w)) as [|e q] eqn:Hq; [done|].
  rewrite dispatch_reentrant by done.
  pose proof (dispatch_closed custom _ (guard_closed true) n e q w Hw Hq) as Hd.
  destruct (dispatch custom pub_enq n e q w) as [[] w2|err w2|w2]; try done.
  by apply IH.
Qed.
End Reentrant.

Lemma publish_S custom n e w :
  publish custom (S n) e w =
    if _isPublishing (router w) then Normal tt (enqueue e w)
    else match drain custom (publish custom n) n (enter_drain (enqueue e w)) with
         | Normal _ w2 => Normal tt (release (leave_drain w2))
         | Raise err w2 => Raise err (leave_drain w2)
         | Timeout w2 => Timeout w2
         end.
Proof. reflexivity. Qed.

(** A call of [publish] that finds the guard clear, with one level
    unfolded. *)
Lemma publish_top custom n e w :
  _isPublishing (router w) = false →
  publish custom (S (S n)) e w =
    match drain custom pub_enq (S n) (enter_drain (enqueue e w)) with
    | Normal _ w2 => Normal tt (release (leave_drain w2))
    | Raise err w2 => Raise err (leave_drain w2)
    | Timeout w2 => Timeout w2
    end.
Proof.
  intros H. rewrite publish_S, H. by rewrite drain_reentrant.
Qed.

(** ** First in, first out *)

Lemma fifo_enter_drain w : fifo w → fifo (enter_drain w).
Proof. done. Qed.

Lemma fifo_leave_drain w : fifo w → fifo (leave_drain w).
Proof. done. Qed.

Lemma fifo_release w : fifo w → fifo (release w).
Proof. done. Qed.

Lemma publish_fifo custom n e w : fifo w → fifo (final (publish custom n e w)).
Proof.
  intros Hw.
  assert (fifo (enqueue e w)) as He
    by (by apply (closed_enqueue _ (closed_handler _ fifo_closed))).
  destruct n as [|[|n]]; [done| |].
  - rewrite publish_S. by destruct (_isPublishing (router w)).
  - destruct (_isPublishing (router w)) eqn:Hg.
    + by rewrite publish_reentrant.
    + rewrite publish_top by done.
      pose proof (drain_closed custom _ fifo_closed (S n) _ (fifo_enter_drain _ He)) as Hd.
      by destruct (drain custom pub_enq (S n) (enter_drain (enqueue e w)))
        as [[] w2|err w2|w2].
Qed.

(** Events are only ever added to the log of enqueued events. *)
Lemma grows_closed e0 : step_closed (λ w, ∃ rest, enqueued (ghost w) = e0 ++ rest).
Proof.
  split; [split|]; simpl; try done.
  intros e w [rest ->]. exists (rest ++ [e]). by rewrite app_assoc.
Qed.

Lemma drain_normal_empty custom pub n w w' :
  drain custom pub n w = Normal tt w' → _eventQueue (router w') = [].
Proof.
  revert w. induction n as [|n IH]; intros w; simpl; [done|].
  destruct (_eventQueue (router w)) as [|e q] eqn:Hq.
  - by intros [= <-].
  - destruct (dispatch custom pub n e q w) as [[] w2|err w2|w2]; [|done..].
    apply IH.
Qed.

(** ** The guard *)

Lemma guard_ok_new s :
  guard_ok {| router := new_PublishSubscribeService; store := s; ghost := no_ghost |}.
Proof. reflexivity. Qed.

Lemma guard_ok_subscribe ty h w : guard_ok w → guard_ok (set_router (subscribe ty h) w).
Proof. unfold guard_ok. simpl. by rewrite subscribe_guard. Qed.

Lemma guard_ok_unsubscribe ty h w : guard_ok w → guard_ok (set_router (unsubscribe ty h) w).
Proof. unfold guard_ok. simpl. by rewrite unsubscribe_guard. Qed.

Lemma guard_ok_store f w : guard_ok w → guard_ok (set_store f w).
Proof. done. Qed.

Lemma draining_closed :
  step_closed (λ w, _isPublishing (router w) = true ∧ drains (ghost w) = 1).
Proof. apply step_closed_and; [apply guard_closed | apply drains_closed]. Qed.

(** What a call of [publish] leaves behind, by the way it ends. *)
Lemma publish_guard custom n e w :
  guard_ok w →
  match publish custom n e w with
  | Normal _ w' | Timeout w' => guard_ok w'
  | Raise _ w' =>
      _isPublishing (router w) = false ∧
      _isPublishing (router w') = true ∧ drains (ghost w') = 0
  end.
Proof.
  unfold guard_ok. intros Hw. destruct n as [|[|n]]; [done| |].
  - rewrite publish_S. by destruct (_isPublishing (router w)) eqn:Hg; simpl; rewrite ?Hg, Hw.
  - destruct (_isPublishing (router w)) eqn:Hg.
    + rewrite publish_reentrant by done. simpl. by rewrite Hg.
    + rewrite publish_top by done.
      assert (_isPublishing (router (enter_drain (enqueue e w))) = true ∧
              drains (ghost (enter_drain (enqueue e w))) = 1) as Hpre
        by (simpl; by rewrite Hw).
      pose proof (drain_closed custom _ draining_closed (S n) _ Hpre) as Hd.
      cbv beta in Hd.
      destruct (drain custom pub_enq (S n) (enter_drain (enqueue e w)))
        as [[] w2|err w2|w2]; simpl in *; destruct Hd as [Hg2 Hd2];
        rewrite ?Hg2, ?Hd2; done.
Qed.

(** ** The threshold detector *)

Lemma warning_handle_low self mp ev s m M :
  subscriber_heap s !! self = Some (StockWarningSubscriber mp) →
  mp !! machineId ev = Some (m, false) →
  machine_heap s !! m = Some M →
  (Machine.stockLevel M < 3)%Z →
  object_handle self ev s =
    (ROne (LowStockWarningEvent (Machine.id M)),
     set_subscriber_heap
       (<[self := StockWarningSubscriber (<[machineId ev := (m, true)]> mp)]>) s).
Proof.
  intros Hs Hm HM Hl. unfold object_handle, warning_handle.
  rewrite Hs, Hm, HM. by apply Z.ltb_lt in Hl as ->.
Qed.

Lemma warning_handle_ok self mp ev s m M :
  subscriber_heap s !! self = Some (StockWarningSubscriber mp) →
  mp !! machineId ev = Some (m, true) →
  machine_heap s !! m = Some M →
  (Machine.stockLevel M >= 3)%Z →
  object_handle self ev s =
    (ROne (StockLevelOkEvent (Machine.id M)),
     set_subscriber_heap
       (<[self := StockWarningSubscriber (<[machineId ev := (m, false)]> mp)]>) s).
Proof.
  intros Hs Hm HM Hl. unfold object_handle, warning_handle.
  rewrite Hs, Hm, HM.
  assert ((Machine.stockLevel M <? 3)%Z = false) as -> by (apply Z.ltb_ge; lia).
  assert ((Machine.stockLevel M >=? 3)%Z = true) as -> by (apply Z.geb_le; lia).
  done.
Qed.

Lemma warning_handle_same self mp ev s m b M :
  subscriber_heap s !! self = Some (StockWarningSubscriber mp) →
  mp !! machineId ev = Some (m, b) →
  machine_heap s !! m = Some M →
  b = bool_decide (Machine.stockLevel M < 3)%Z →
  object_handle self ev s = (RVoid, s).
Proof.
  intros Hs Hm HM ->. unfold object_handle, warning_handle.
  rewrite Hs, Hm, HM. case_bool_decide as Hl.
  - apply Z.ltb_lt in Hl as Hl1. rewrite Hl1. simpl.
    assert ((Machine.stockLevel M >=? 3)%Z = false) as ->; [|done].
    rewrite Z.geb_leb. apply Z.leb_gt. lia.
  - assert ((Machine.stockLevel M <? 3)%Z = false) as -> by (apply Z.ltb_ge; lia).
    simpl. by rewrite andb_false_r.
Qed.

Lemma warned_set self mp mid mv s :
  is_Some (subscriber_heap s !! self) →
  warned self mid
    (set_subscriber_heap (<[self := StockWarningSubscriber (<[mid := mv]> mp)]>) s)
  = Some (snd mv).
Proof.
  intros Hs. unfold warned. simpl.
  rewrite list_lookup_insert_eq by (by apply lookup_lt_is_Some).
  by rewrite lookup_insert_eq.
Qed.

(** ** The scope of a subscriber *)

Lemma warning_map_keyed s ms k m b :
  warning_map s ms !! k = Some (m, b) → id_of s m = Some k.
Proof.
  unfold warning_map.
  assert (∀ acc : gmap string (loc * bool),
            (∀ k m b, acc !! k = Some (m, b) → id_of s m = Some k) →
            ∀ k m b,
              foldl (λ acc m, match id_of s m with
                              | Some i => <[i := (m, false)]> acc
                              | None => acc
                              end) acc ms !! k = Some (m, b) →
              id_of s m = Some k) as H.
  { induction ms as [|m0 ms IH]; intros acc Hacc k' m' b'; simpl; [apply Hacc|].
    apply IH. intros k1 m1 b1.
    destruct (id_of s m0) as [i0|] eqn:Hi; [|apply Hacc].
    destruct (decide (i0 = k1)) as [->|Hne].
    - rewrite lookup_insert_eq. by intros [= <- <-].
    - rewrite lookup_insert_ne by done. apply Hacc. }
  apply H. intros k' m' b'. by rewrite lookup_empty.
Qed.

Lemma removeMachine_machine_heap self machine s :
  machine_heap (removeMachine self machine s) = machine_heap s.
Proof.
  unfold removeMachine.
  destruct (subscriber_heap s !! self) as [[ms|ms|mp|ms]|]; try done.
  by destruct (id_of s machine).
Qed.

Lemma getMachines_removeMachine_sale self ms machine s :
  subscriber_heap s !! self = Some (MachineSaleSubscriber ms) →
  getMachines self (removeMachine self machine s)
  = without_id s machine (getMachines self s).
Proof.
  intros Hs. unfold getMachines, removeMachine. rewrite Hs. simpl.
  rewrite list_lookup_insert_eq by (by eapply lookup_lt_Some).
  by rewrite list_lookup_middle.
Qed.

Lemma getMachines_removeMachine_refill self ms machine s :
  subscriber_heap s !! self = Some (MachineRefillSubscriber ms) →
  getMachines self (removeMachine self machine s)
  = without_id s machine (getMachines self s).
Proof.
  intros Hs. unfold getMachines, removeMachine. rewrite Hs. simpl.
  rewrite list_lookup_insert_eq by (by eapply lookup_lt_Some).
  by rewrite list_lookup_middle.
Qed.

Lemma getMachines_removeMachine_logger self ms machine s :
  subscriber_heap s !! self = Some (StockLoggerSubscriber ms) →
  getMachines self (removeMachine self machine s)
  = without_id s machine (getMachines self s).
Proof.
  intros Hs. unfold getMachines, removeMachine. rewrite Hs. simpl.
  rewrite list_lookup_insert_eq by (by eapply lookup_lt_Some).
  by rewrite list_lookup_middle.
Qed.

Lemma elem_of_without_id s machine a m :
  m ∈ without_id s machine a ↔ id_of s m ≠ id_of s machine ∧ m ∈ a.
Proof. unfold without_id. by rewrite list_elem_of_filter. Qed.

Lemma getMachines_warning self mp s m :
  subscriber_heap s !! self = Some (StockWarningSubscriber mp) →
  m ∈ getMachines self s ↔ ∃ k b, mp !! k = Some (m, b).
Proof.
  intros Hs. unfold getMachines. rewrite Hs. rewrite list_elem_of_fmap. split.
  - intros ([k [m' b]] & -> & Hin). apply elem_of_map_to_list in Hin. by exists k, b.
  - intros (k & b & Hk). exists (k, (m, b)). split; [done|].
    by apply elem_of_map_to_list.
Qed.

Lemma without_id_cases (o : option string) (i : string) (P : Prop) :
  (o = Some i → ¬ (o ≠ Some i ∧ P)) ∧ (o ≠ Some i → (o ≠ Some i ∧ P ↔ P)).
Proof.
  split.
  - intros Ho [Hne _]. done.
  - intros Hne. split; [by intros [_ ?]|done].
Qed.

(** C10.  [removeMachine] compares ids, not objects.  Let [machine] be
    any [Machine] object with id [i].  After [removeMachine(machine)] no
    machine with id [i] is in the subscriber's scope, whether it is the
    object [machine] or another one; a machine with another id is in the
    scope afterwards exactly if it was before.  This holds for each of
    the four classes; the machines themselves are not touched. *)
Theorem C10_remove_by_id self machine i s :
  is_Some (subscriber_heap s !! self) →
  id_of s machine = Some i →
  keyed_by_id self s →
  machine_heap (removeMachine self machine s) = machine_heap s
  ∧ ∀ m,
      (id_of s m = Some i → m ∉ getMachines self (removeMachine self machine s))
      ∧ (id_of s m ≠ Some i →
         (m ∈ getMachines self (removeMachine self machine s) ↔ m ∈ getMachines self s)).
Proof.
  intros [o Hs] Hi Hkey. split; [apply removeMachine_machine_heap|].
  intros m. destruct o as [ms|ms|mp|ms].
  - rewrite (getMachines_removeMachine_sale self ms) by done.
    rewrite elem_of_without_id, Hi. apply without_id_cases.
  - rewrite (getMachines_removeMachine_refill self ms) by done.
    rewrite elem_of_without_id, Hi. apply without_id_cases.
  - assert (subscriber_heap (removeMachine self machine s) !! self
            = Some (StockWarningSubscriber (delete i mp))) as Hs'.
    { unfold removeMachine. rewrite Hs, Hi. simpl.
      apply list_lookup_insert_eq. by eapply lookup_lt_Some. }
    rewrite (getMachines_warning self (delete i mp)) by done.
    rewrite (getMachines_warning self mp) by done.
    split.
    + intros Hm (k & b & Hk). destruct (decide (i = k)) as [->|Hne].
      * by rewrite lookup_delete_eq in Hk.
      * rewrite lookup_delete_ne in Hk by done.
        specialize (Hkey mp k m b Hs Hk). congruence.
    + intros Hm. split; intros (k & b & Hk).
      * destruct (decide (i = k)) as [->|Hne].
        -- by rewrite lookup_delete_eq in Hk.
        -- rewrite lookup_delete_ne in Hk by done. eauto.
      * exists k, b. rewrite lookup_delete_ne; [done|].
        intros ->. specialize (Hkey mp k m b Hs Hk). congruence.
  - rewrite (getMachines_removeMachine_logger self ms) by done.
    rewrite elem_of_without_id, Hi. apply without_id_cases.
Qed.

(** The program's warning subscriber keeps its machines under their
    ids. *)
Lemma keyed_by_id_program self : keyed_by_id self twin_store.
Proof.
  intros mp k m b Hs Hk.
  destruct self as [|[|[|[|self]]]]; try discriminate Hs.
  injection Hs as <-.
  apply warning_map_keyed in Hk. revert Hk. unfold id_of. simpl.
  destruct m as [|[|[|m]]]; simpl; try done.
Qed.

(** The sale subscriber of the program is given a second object with
    the id 001: the program's machine 001 leaves its scope, the other
    two machines stay. *)
Lemma C10_remove_by_id_witness :
  getMachines saleSubscriber twin_store = [0; 1; 2]
  ∧ twin = 3
  ∧ getMachines saleSubscriber (removeMachine saleSubscriber twin twin_store) = [1; 2]
  ∧ (id_of twin_store 0 = Some "001" →
     0 ∉ getMachines saleSubscriber (removeMachine saleSubscriber twin twin_store))
  ∧ (id_of twin_store 1 ≠ Some "001" →
     (1 ∈ getMachines saleSubscriber (removeMachine saleSubscriber twin twin_store)
      ↔ 1 ∈ getMachines saleSubscriber twin_store)).
Proof.
  split; [reflexivity|]. split; [reflexivity|]. split; [reflexivity|].
  assert (is_Some (subscriber_heap twin_store !! saleSubscriber)) as H1
    by (eexists; reflexivity).
  assert (id_of twin_store twin = Some "001") as H2 by reflexivity.
  pose proof (C10_remove_by_id saleSubscriber twin "001" twin_store H1 H2
                (keyed_by_id_program saleSubscriber)) as [_ H].
  split; [apply (H 0)|apply (H 1)].
Defined.

(** ** Dispatch to instances of the four classes

    These handlers never call the router, never throw and return at
    most one event, so the [for] loop over them can be written down at
    once. *)

Lemma add_events_nil w : add_events [] w = w.
Proof.
  destruct w as [[] ? []]. unfold add_events. simpl. by rewrite !app_nil_r.
Qed.

Lemma add_events_app es1 es2 w :
  add_events es2 (add_events es1 w) = add_events (es1 ++ es2) w.
Proof. unfold add_events. simpl. by rewrite !app_assoc. Qed.

Lemma push_result_add_events r w : push_result r w = add_events (events_of r) w.
Proof.
  destruct r as [|e|es]; simpl.
  - by rewrite add_events_nil.
  - reflexivity.
  - revert w. induction es as [|e es IH]; intros w; simpl.
    + by rewrite add_events_nil.
    + rewrite IH. apply (add_events_app [e] es).
Qed.

Lemma run_objects_nil ev w : run_objects [] ev w = w.
Proof.
  destruct w as [[] ? []]. unfold run_objects. simpl. by rewrite !app_nil_r.
Qed.

Lemma run_objects_cons l ls ev w :
  run_objects (l :: ls) ev w
  = run_objects ls ev
      (push_result (fst (object_handle l ev (store w)))
         (set_store (λ _, snd (object_handle l ev (store w)))
            (log_call (Obj l) ev w))).
Proof.
  rewrite push_result_add_events. unfold run_objects. simpl.
  destruct (object_handle l ev (store w)) as [r s1]. simpl.
  destruct (handle_objects ls ev s1) as [es s2]. simpl.
  by rewrite <- !app_assoc.
Qed.

Lemma for_handlers_objects custom pub n a i ev w hs ls :
  handler_arrays (router w) !! a = Some hs →
  drop i hs = Obj <$> ls →
  length ls < n →
  for_handlers custom pub n a i ev w = Normal tt (run_objects ls ev w).
Proof.
  revert n i w. induction ls as [|l ls IH]; intros n i w Ha Hd Hn.
  - destruct n as [|n]; [simpl in Hn; lia|]. cbn [for_handlers].
    rewrite Ha. simpl.
    assert (hs !! i = None) as ->.
    { rewrite <- (Nat.add_0_r i), <- lookup_drop, Hd. done. }
    by rewrite run_objects_nil.
  - destruct n as [|n]; [simpl in Hn; lia|]. cbn [for_handlers].
    rewrite Ha. simpl.
    assert (hs !! i = Some (Obj l)) as Hi.
    { rewrite <- (Nat.add_0_r i), <- lookup_drop, Hd. done. }
    rewrite Hi. rewrite run_objects_cons. unfold handle.
    cbn [log_call set_ghost store].
    destruct (object_handle l ev (store w)) as [r s1]. cbn [fst snd].
    apply IH.
    + by rewrite push_result_add_events.
    + rewrite (drop_S _ _ _ Hi) in Hd. by injection Hd.
    + simpl in Hn. lia.
Qed.

Lemma dispatch_objects custom pub n ev q w ls :
  handlers_of (type ev) (router w) = Obj <$> ls →
  length ls < n →
  dispatch custom pub n ev q w = Normal tt (run_objects ls ev (shift ev q w)).
Proof.
  unfold handlers_of, dispatch. intros Hh Hn.
  change (_subscribers (router (shift ev q w))) with (_subscribers (router w)).
  destruct (_subscribers (router w) !! type ev) as [a|].
  - destruct (handler_arrays (router w) !! a) as [hs|] eqn:Ha; simpl in Hh.
    + by apply (for_handlers_objects custom pub n a 0 ev _ hs ls).
    + destruct ls; [|done]. destruct n as [|n]; [simpl in Hn; lia|].
      cbn [for_handlers]. simpl. rewrite Ha. simpl. by rewrite run_objects_nil.
  - destruct ls; [|done]. by rewrite run_objects_nil.
Qed.

(** A call of [publish] on a router at rest, when the handlers of the
    event are instances of the four classes and return nothing. *)
Lemma publish_quiet custom n ev w ls s' :
  _isPublishing (router w) = false →
  _eventQueue (router w) = [] →
  handlers_of (type ev) (router w) = Obj <$> ls →
  handle_objects ls ev (store w) = ([], s') →
  length ls + 3 ≤ n →
  publish custom n ev w = Normal tt (delivered ev ls s' w).
Proof.
  intros Hg Hq Hh Ho Hn.
  destruct n as [|[|[|n]]]; [lia..|].
  rewrite publish_top by done. cbn [drain].
  cbn [enter_drain enqueue router _eventQueue]. rewrite Hq. cbn [app].
  rewrite (dispatch_objects custom pub_enq (S n) ev [] _ ls) by (done || lia).
  unfold run_objects. cbn [shift enter_drain enqueue router store ghost _eventQueue
    _subscribers handler_arrays _isPublishing enqueued dequeued calls drains].
  rewrite Ho. cbn [fst snd app drain router _eventQueue].
  unfold delivered.
  destruct w as [[subs arrs qu g] s [enq deq cl dr]]. simpl in *. subst.
  by rewrite !app_nil_r.
Qed.

(** ** Events for machines a handler does not know *)

Lemma findIndex_unknown s mid a :
  (¬ ∃ m, m ∈ a ∧ id_of s m = Some mid) → findIndex s mid a = None.
Proof.
  intros H. unfold findIndex. apply list_find_None, Forall_forall.
  intros m Hm Hid. apply H. eauto.
Qed.

Lemma object_handle_unknown self ev s :
  ¬ knows self (machineId ev) s → object_handle self ev s = (RVoid, s).
Proof.
  unfold knows, object_handle, sale_handle, refill_handle, warning_handle.
  destruct (subscriber_heap s !! self) as [[ms|ms|mp|ms]|]; intros H; try done.
  - by rewrite findIndex_unknown.
  - by rewrite findIndex_unknown.
  - destruct (mp !! machineId ev) as [[m b]|]; [|done]. destruct H. eauto.
Qed.

Lemma handle_objects_unknown ls ev s :
  Forall (λ l, ¬ knows l (machineId ev) s) ls → handle_objects ls ev s = ([], s).
Proof.
  induction 1 as [|l ls Hl _ IH]; simpl; [done|].
  by rewrite object_handle_unknown, IH.
Qed.

(** C8.  Silent no-ops.  On a router at rest, publishing an event whose
    type has no handler returns normally: the event is enqueued and
    taken, no handler is called, router and store are as before.  A
    handler of one of the four classes that gets an event whose
    [machineId] names no machine in its scope returns nothing and
    changes nothing; and when every handler of the event's type is such
    a handler, publishing the event changes no state and enqueues no
    further event. *)
Theorem C8_silent_noop custom n ev w :
  _isPublishing (router w) = false →
  _eventQueue (router w) = [] →
  (handlers_of (type ev) (router w) = [] → 3 ≤ n →
   publish custom n ev w = Normal tt (delivered ev [] (store w) w))
  ∧ (∀ l, ¬ knows l (machineId ev) (store w) →
       object_handle l ev (store w) = (RVoid, store w))
  ∧ (∀ ls, handlers_of (type ev) (router w) = Obj <$> ls →
       Forall (λ l, ¬ knows l (machineId ev) (store w)) ls →
       length ls + 3 ≤ n →
       publish custom n ev w = Normal tt (delivered ev ls (store w) w)).
Proof.
  intros Hg Hq. split; [|split].
  - intros Hh Hn. by apply (publish_quiet custom n ev w []).
  - intros l. apply object_handle_unknown.
  - intros ls Hh Hls Hn. apply publish_quiet; try done.
    by apply handle_objects_unknown.
Qed.

(** The program's router gets an event of a type nobody subscribed to,
    and a sale for a machine nobody knows: for the latter the sale and
    the warning subscriber are called and nothing changes. *)
Lemma C8_silent_noop_witness :
  publish no_code 3 (OtherEvent "restock" "001") program_world
  = Normal tt (delivered (OtherEvent "restock" "001") [] (store program_world)
                 program_world)
  ∧ publish no_code 5 (MachineSaleEvent 2 "999") program_world
    = Normal tt (delivered (MachineSaleEvent 2 "999")
                   [saleSubscriber; stockWarningSubscriber]
                   (store program_world) program_world).
Proof.
  split.
  - apply (proj1 (C8_silent_noop no_code 3 (OtherEvent "restock" "001")
                    program_world eq_refl eq_refl)); [reflexivity|lia].
  - apply (proj2 (proj2 (C8_silent_noop no_code 5 (MachineSaleEvent 2 "999")
                           program_world eq_refl eq_refl)));
      [reflexivity| |simpl; lia].
    repeat constructor.
    + intros (m & Hm & Hid). vm_compute in Hm.
      repeat (apply elem_of_cons in Hm as [->|Hm]; [by vm_compute in Hid|]).
      by apply elem_of_nil in Hm.
    + intros [x Hx]. by vm_compute in Hx.
Defined.

(** ** Removing a machine from the scope of the sale subscriber *)

Lemma findIndex_machine_heap s s' mid a :
  machine_heap s = machine_heap s' → findIndex s mid a = findIndex s' mid a.
Proof.
  destruct s, s'. simpl. intros ->. reflexivity.
Qed.

Lemma object_handle_sale self ms ev s :
  subscriber_heap s !! self = Some (MachineSaleSubscriber ms) →
  object_handle self ev s
  = (RVoid,
     match findIndex s (machineId ev) (getMachines self s) with
     | None => s
     | Some (_, m) =>
         match ev with
         | MachineSaleEvent sold _ =>
             set_machine_heap (alter (Machine.add_stock (- sold)) m) s
         | _ => s
         end
     end).
Proof. intros Hs. unfold object_handle, getMachines, sale_handle. by rewrite Hs. Qed.

Lemma removeMachine_sale_class self ms machine s :
  subscriber_heap s !! self = Some (MachineSaleSubscriber ms) →
  subscriber_heap (removeMachine self machine s) !! self
  = Some (MachineSaleSubscriber (length (array_heap s))).
Proof.
  intros Hs. unfold removeMachine. rewrite Hs. simpl.
  apply list_lookup_insert_eq. by eapply lookup_lt_Some.
Qed.

(** No machine with the id of [machine] is found in the filtered array. *)
Lemma findIndex_removed s machine i a :
  id_of s machine = Some i → findIndex s i (without_id s machine a) = None.
Proof.
  intros Hi. apply findIndex_unknown. intros (m & Hm & Hid).
  apply elem_of_without_id in Hm as [Hne _]. congruence.
Qed.

(** A machine with another id is found in the filtered array if it was
    found in the array. *)
Lemma findIndex_kept s machine i j a k m :
  id_of s machine = Some i → j ≠ i →
  findIndex s j a = Some (k, m) →
  ∃ k', findIndex s j (without_id s machine a) = Some (k', m).
Proof.
  intros Hi Hne. unfold findIndex, without_id. revert k.
  induction a as [|x a IH]; intros k; [done|].
  cbn [list_find]. rewrite filter_cons.
  destruct (decide (id_of s x = Some j)) as [Hx|Hx].
  - intros [= <- <-]. rewrite decide_True by congruence.
    exists 0. cbn [list_find]. by rewrite decide_True.
  - destruct (list_find _ a) as [[k0 m0]|] eqn:Hf; [|done].
    intros [= <- <-]. destruct (IH k0 eq_refl) as [k' Hk'].
    destruct (decide (id_of s x ≠ id_of s machine)).
    + exists (S k'). cbn [list_find]. rewrite decide_False by done.
      by rewrite Hk'.
    + by exists k'.
Qed.

(** C9.  Scope removal.  After [removeMachine(machine)] on a sale
    subscriber, [handle] ignores every event for the id of [machine]:
    it returns nothing and changes nothing, while a sale for any other
    machine that was in scope still lowers that machine's stock.  With
    the subscriber still subscribed to "sale" on a router at rest,
    publishing a sale for the removed id calls it and leaves the store as
    it was; publishing a sale for a machine still in scope lowers that
    machine's stock by the quantity sold. *)
Theorem C9_scope_removal custom n self ms machine i s w :
  subscriber_heap s !! self = Some (MachineSaleSubscriber ms) →
  id_of s machine = Some i →
  store w = removeMachine self machine s →
  _isPublishing (router w) = false →
  _eventQueue (router w) = [] →
  handlers_of "sale" (router w) = [Obj self] →
  4 ≤ n →
  (∀ ev, machineId ev = i → object_handle self ev (store w) = (RVoid, store w))
  ∧ (∀ sold,
       publish custom n (MachineSaleEvent sold i) w
       = Normal tt (delivered (MachineSaleEvent sold i) [self] (store w) w))
  ∧ (∀ sold j k m, j ≠ i →
       findIndex s j (getMachines self s) = Some (k, m) →
       object_handle self (MachineSaleEvent sold j) (store w)
       = (RVoid, set_machine_heap (alter (Machine.add_stock (- sold)) m) (store w))
       ∧ publish custom n (MachineSaleEvent sold j) w
         = Normal tt
             (delivered (MachineSaleEvent sold j) [self]
                (set_machine_heap (alter (Machine.add_stock (- sold)) m) (store w)) w)
       ∧ stock_of (set_machine_heap (alter (Machine.add_stock (- sold)) m) (store w)) m
         = (λ x, x - sold)%Z <$> stock_of s m).
Proof.
  intros Hs Hi Hw Hg Hq Hh Hn.
  pose proof (removeMachine_sale_class self ms machine s Hs) as Hs1.
  pose proof (getMachines_removeMachine_sale self ms machine s Hs) as Hscope.
  pose proof (removeMachine_machine_heap self machine s) as Hheap.
  rewrite <- Hw in Hs1, Hscope, Hheap.
  assert (∀ ev, machineId ev = i → object_handle self ev (store w) = (RVoid, store w))
    as Hignore.
  { intros ev Hev. rewrite (object_handle_sale self _ ev (store w) Hs1).
    rewrite Hscope, (findIndex_machine_heap _ s) by done.
    by rewrite Hev, findIndex_removed. }
  assert (∀ sold j k m, j ≠ i →
            findIndex s j (getMachines self s) = Some (k, m) →
            object_handle self (MachineSaleEvent sold j) (store w)
            = (RVoid, set_machine_heap (alter (Machine.add_stock (- sold)) m) (store w)))
    as Hsell.
  { intros sold j k m Hne Hf.
    rewrite (object_handle_sale self _ _ (store w) Hs1).
    rewrite Hscope, (findIndex_machine_heap _ s) by done. cbn [machineId].
    destruct (findIndex_kept s machine i j _ k m Hi Hne Hf) as [k' ->]. done. }
  split; [done|]. split.
  - intros sold. apply publish_quiet; try done.
    simpl. by rewrite Hignore.
  - intros sold j k m Hne Hf. split; [by eapply Hsell|]. split.
    + apply publish_quiet; try done.
      simpl. by rewrite (Hsell sold j k m).
    + unfold stock_of. simpl. rewrite Hheap, list_lookup_alter_eq.
      destruct (machine_heap s !! m) as [M|]; [|done]. simpl. f_equal.
Qed.

(** Machine 001 has been removed from the program's sale subscriber: a
    sale for 001 leaves it at 10, a sale of 2 for 002 takes that machine
    to 8. *)
Lemma C9_scope_removal_witness :
  (∀ sold,
     publish no_code 4 (MachineSaleEvent sold "001") removed_world
     = Normal tt (delivered (MachineSaleEvent sold "001") [saleSubscriber]
                    (store removed_world) removed_world))
  ∧ stock_of (store (final (publish no_code 4 (MachineSaleEvent 2 "001") removed_world))) 0
    = Some 10%Z
  ∧ stock_of (store (final (publish no_code 4 (MachineSaleEvent 2 "002") removed_world))) 1
    = Some 8%Z.
Proof.
  assert (subscriber_heap (fst program_store) !! saleSubscriber
          = Some (MachineSaleSubscriber 0)) as H1 by reflexivity.
  assert (id_of (fst program_store) 0 = Some "001") as H2 by reflexivity.
  assert (4 ≤ 4) as H3 by lia.
  pose proof (C9_scope_removal no_code 4 saleSubscriber 0 0 "001" (fst program_store)
                removed_world H1 H2 eq_refl eq_refl eq_refl eq_refl H3)
    as (_ & Hgone & Hkept).
  split; [exact Hgone|]. split.
  - by rewrite Hgone.
  - assert ("002" ≠ "001") as Hne by done.
    assert (findIndex (fst program_store) "002"
              (getMachines saleSubscriber (fst program_store)) = Some (1, 1))
      as Hf by reflexivity.
    destruct (Hkept 2%Z "002" 1 1 Hne Hf) as (_ & Hp & Hst).
    rewrite Hp. cbn [final delivered store]. rewrite Hst. reflexivity.
Defined.

(** ** What the four classes can do to the stock *)

Lemma moves_stock_derived k e : is_derived e = true → moves_stock k e = false.
Proof. by destruct k as [[]|], e. Qed.

Lemma object_handle_kind l ev s l' :
  kind_at (snd (object_handle l ev s)) l' = kind_at s l'.
Proof.
  unfold object_handle, kind_at.
  destruct (subscriber_heap s !! l) as [[ms|ms|mp|ms]|] eqn:Hs; simpl; try done.
  - unfold sale_handle.
    destruct (findIndex _ _ _) as [[k m]|]; [|done]. by destruct ev.
  - unfold refill_handle.
    destruct (findIndex _ _ _) as [[k m]|]; [|done]. by destruct ev.
  - unfold warning_handle.
    destruct (mp !! machineId ev) as [[m b]|]; [|done].
    destruct (machine_heap s !! m) as [M|]; [|done].
    assert (∀ mp',
              kind_of <$> <[l := StockWarningSubscriber mp']> (subscriber_heap s) !! l'
              = kind_of <$> subscriber_heap s !! l') as Hins.
    { intros mp'. destruct (decide (l = l')) as [<-|Hne].
      - rewrite list_lookup_insert_eq by (by eapply lookup_lt_Some). by rewrite Hs.
      - by rewrite list_lookup_insert_ne. }
    destruct ((Machine.stockLevel M <? 3)%Z && negb b); [apply Hins|].
    destruct ((Machine.stockLevel M >=? 3)%Z && b); [apply Hins|done].
Qed.

Lemma object_handle_machine_heap l ev s :
  moves_stock (kind_at s l) ev = false →
  machine_heap (snd (object_handle l ev s)) = machine_heap s.
Proof.
  unfold object_handle, kind_at.
  destruct (subscriber_heap s !! l) as [[ms|ms|mp|ms]|]; simpl; try done.
  - unfold sale_handle.
    destruct (findIndex _ _ _) as [[k m]|]; [|done]. by destruct ev.
  - unfold refill_handle.
    destruct (findIndex _ _ _) as [[k m]|]; [|done]. by destruct ev.
  - intros _. unfold warning_handle.
    destruct (mp !! machineId ev) as [[m b]|]; [|done].
    destruct (machine_heap s !! m) as [M|]; [|done].
    destruct ((Machine.stockLevel M <? 3)%Z && negb b); [done|].
    by destruct ((Machine.stockLevel M >=? 3)%Z && b).
Qed.

Lemma object_handle_events l ev s :
  Forall (λ e, is_derived e = true) (events_of (fst (object_handle l ev s)))
  ∧ length (events_of (fst (object_handle l ev s))) ≤ 1.
Proof.
  unfold object_handle.
  destruct (subscriber_heap s !! l) as [[ms|ms|mp|ms]|]; simpl; auto.
  unfold warning_handle.
  destruct (mp !! machineId ev) as [[m b]|]; simpl; auto.
  destruct (machine_heap s !! m) as [M|]; simpl; auto.
  destruct ((Machine.stockLevel M <? 3)%Z && negb b); simpl; auto.
  destruct ((Machine.stockLevel M >=? 3)%Z && b); simpl; auto.
Qed.

Lemma object_handle_quiet l ev s :
  kind_at s l ≠ Some KWarning →
  moves_stock (kind_at s l) ev = false →
  object_handle l ev s = (RVoid, s).
Proof.
  unfold object_handle, kind_at.
  destruct (subscriber_heap s !! l) as [[ms|ms|mp|ms]|]; simpl; try done.
  - intros _. unfold sale_handle.
    destruct (findIndex _ _ _) as [[k m]|]; [|done]. by destruct ev.
  - intros _. unfold refill_handle.
    destruct (findIndex _ _ _) as [[k m]|]; [|done]. by destruct ev.
Qed.

Lemma handle_objects_kind ls ev s l' :
  kind_at (snd (handle_objects ls ev s)) l' = kind_at s l'.
Proof.
  revert s. induction ls as [|l ls IH]; intros s; simpl; [done|].
  pose proof (object_handle_kind l ev s l') as Hk.
  destruct (object_handle l ev s) as [r s1]. specialize (IH s1).
  destruct (handle_objects ls ev s1) as [es s2]. simpl in *. congruence.
Qed.

Lemma handle_objects_machine_heap ls ev s :
  Forall (λ l, moves_stock (kind_at s l) ev = false) ls →
  machine_heap (snd (handle_objects ls ev s)) = machine_heap s.
Proof.
  revert s. induction ls as [|l ls IH]; intros s Hls; simpl; [done|].
  apply Forall_cons in Hls as [Hl Hls].
  pose proof (object_handle_machine_heap l ev s Hl) as Hm.
  assert (Forall (λ l0, moves_stock (kind_at (snd (object_handle l ev s)) l0) ev = false) ls)
    as Hls'.
  { eapply Forall_impl; [exact Hls|]. intros l0. by rewrite object_handle_kind. }
  destruct (object_handle l ev s) as [r s1]. specialize (IH s1 Hls').
  destruct (handle_objects ls ev s1) as [es s2]. simpl in *. congruence.
Qed.

Lemma handle_objects_events ls ev s :
  Forall (λ e, is_derived e = true) (fst (handle_objects ls ev s))
  ∧ length (fst (handle_objects ls ev s)) ≤ length ls.
Proof.
  revert s. induction ls as [|l ls IH]; intros s; simpl; [auto|].
  destruct (object_handle_events l ev s) as [Hd Hl].
  destruct (object_handle l ev s) as [r s1]. destruct (IH s1) as [Hd' Hl'].
  destruct (handle_objects ls ev s1) as [es s2]. simpl in *. split.
  - by apply Forall_app.
  - rewrite length_app. lia.
Qed.

Lemma handle_objects_quiet ls ev s :
  Forall (λ l, kind_at s l ≠ Some KWarning) ls →
  Forall (λ l, moves_stock (kind_at s l) ev = false) ls →
  handle_objects ls ev s = ([], s).
Proof.
  induction ls as [|l ls IH]; intros Hw Hm; simpl; [done|].
  apply Forall_cons in Hw as [Hw1 Hw]. apply Forall_cons in Hm as [Hm1 Hm].
  by rewrite object_handle_quiet, IH.
Qed.

(** A queue of derived events is drained without a change of the store
    when no warning subscriber listens to them; nothing is enqueued and
    the registry stays as it is. *)
Lemma drain_derived custom pub llow lok es :
  ∀ n w,
    _eventQueue (router w) = es →
    Forall (λ e, is_derived e = true) es →
    handlers_of "low_stock_warning" (router w) = Obj <$> llow →
    handlers_of "stock_level_ok" (router w) = Obj <$> lok →
    Forall (λ l, kind_at (store w) l ≠ Some KWarning) llow →
    Forall (λ l, kind_at (store w) l ≠ Some KWarning) lok →
    length es + length llow + length lok + 2 ≤ n →
    ∃ w', drain custom pub n w = Normal tt w'
          ∧ store w' = store w
          ∧ enqueued (ghost w') = enqueued (ghost w)
          ∧ _subscribers (router w') = _subscribers (router w)
          ∧ handler_arrays (router w') = handler_arrays (router w)
          ∧ _isPublishing (router w') = _isPublishing (router w)
          ∧ drains (ghost w') = drains (ghost w).
Proof.
  induction es as [|e es IH]; intros n w Hq Hd Hlow Hok Hklow Hkok Hn.
  - destruct n as [|n]; [lia|]. exists w. cbn [drain]. by rewrite Hq.
  - destruct n as [|n]; [lia|]. cbn [drain]. rewrite Hq.
    apply Forall_cons in Hd as [He Hd].
    assert (∃ l, handlers_of (type e) (router w) = Obj <$> l
                 ∧ Forall (λ l, kind_at (store w) l ≠ Some KWarning) l
                 ∧ length l ≤ length llow + length lok) as (l & Hl & Hkl & Hlen).
    { destruct e; try done; [exists llow|exists lok]; split_and!; try done; lia. }
    rewrite (dispatch_objects custom pub n e es w l) by (done || simpl in Hn; lia).
    assert (handle_objects l e (store w) = ([], store w)) as Ho.
    { apply handle_objects_quiet; [done|].
      apply Forall_forall. intros l0 _. by apply moves_stock_derived. }
    destruct (IH n (run_objects l e (shift e es w)))
      as (w' & Hw' & Hs' & He' & Hsub' & Harr' & Hg' & Hdr').
    + unfold run_objects. simpl. rewrite Ho. simpl. by rewrite app_nil_r.
    + done.
    + done.
    + done.
    + unfold run_objects. simpl. by rewrite Ho.
    + unfold run_objects. simpl. by rewrite Ho.
    + simpl in Hn. lia.
    + exists w'. split; [done|]. rewrite Hs', He', Hsub', Harr', Hg', Hdr'.
      unfold run_objects. simpl. rewrite Ho. simpl. by rewrite app_nil_r.
Qed.

(** ** The registry *)

Lemma router_wf_new : router_wf new_PublishSubscribeService.
Proof. intros ty a. simpl. by rewrite lookup_empty. Qed.

Lemma router_wf_unsubscribe ty h r : router_wf r → router_wf (unsubscribe ty h r).
Proof.
  intros Hwf ty' a. unfold unsubscribe.
  destruct (_subscribers r !! ty) as [a0|] eqn:Ha; [|apply Hwf]. simpl.
  rewrite length_app. simpl. destruct (decide (ty = ty')) as [<-|Hne].
  - rewrite lookup_insert_eq. intros [= <-]. lia.
  - rewrite lookup_insert_ne by done. intros H%Hwf. lia.
Qed.

Lemma router_wf_subscribe ty h r : router_wf r → router_wf (subscribe ty h r).
Proof.
  intros Hwf ty' a. unfold subscribe.
  destruct (_subscribers r !! ty) as [a0|] eqn:Ha; simpl.
  - rewrite Ha. simpl. rewrite length_alter. apply Hwf.
  - rewrite lookup_insert_eq. simpl. rewrite length_alter, length_app. simpl.
    destruct (decide (ty = ty')) as [<-|Hne].
    + rewrite lookup_insert_eq. intros [= <-]. lia.
    + rewrite lookup_insert_ne by done. intros H%Hwf. lia.
Qed.

Lemma handlers_of_unsubscribe ty h r :
  handlers_of ty (unsubscribe ty h r) = filter (λ x, x ≠ h) (handlers_of ty r).
Proof.
  unfold handlers_of, unsubscribe.
  destruct (_subscribers r !! ty) as [a|] eqn:Ha; [|by rewrite Ha].
  simpl. rewrite lookup_insert_eq, list_lookup_middle by done. simpl.
  by destruct (handler_arrays r !! a).
Qed.

Lemma handlers_of_unsubscribe_ne ty ty' h r :
  router_wf r → ty' ≠ ty →
  handlers_of ty' (unsubscribe ty h r) = handlers_of ty' r.
Proof.
  intros Hwf Hne. unfold handlers_of, unsubscribe.
  destruct (_subscribers r !! ty) as [a|] eqn:Ha; [|done].
  simpl. rewrite lookup_insert_ne by done.
  destruct (_subscribers r !! ty') as [a'|] eqn:Ha'; [|done].
  by rewrite lookup_app_l by (by eapply Hwf).
Qed.

Lemma unsubscribe_unknown_type ty h r :
  _subscribers r !! ty = None → unsubscribe ty h r = r.
Proof. intros H. unfold unsubscribe. by rewrite H. Qed.

Lemma filter_absent (h : ISubscriber) (hs : list ISubscriber) :
  h ∉ hs → filter (λ x, x ≠ h) hs = hs.
Proof.
  induction hs as [|x hs IH]; intros Hh; [done|].
  apply not_elem_of_cons in Hh as [Hne Hh].
  rewrite filter_cons, decide_True by done. by rewrite IH.
Qed.

(** A sale published on a router at rest, when no sale subscriber is
    among the handlers of "sale" and no warning subscriber among the
    handlers of the two derived types: the call returns and no stock
    level has changed. *)
Lemma publish_sale_no_seller custom n sold mid w lsale llow lok :
  _isPublishing (router w) = false →
  _eventQueue (router w) = [] →
  handlers_of "sale" (router w) = Obj <$> lsale →
  Forall (λ l, kind_at (store w) l ≠ Some KSale) lsale →
  handlers_of "low_stock_warning" (router w) = Obj <$> llow →
  Forall (λ l, kind_at (store w) l ≠ Some KWarning) llow →
  handlers_of "stock_level_ok" (router w) = Obj <$> lok →
  Forall (λ l, kind_at (store w) l ≠ Some KWarning) lok →
  length lsale + length llow + length lok + 4 ≤ n →
  ∃ w', publish custom n (MachineSaleEvent sold mid) w = Normal tt w'
        ∧ machine_heap (store w') = machine_heap (store w).
Proof.
  intros Hg Hq Hsale Hksale Hlow Hklow Hok Hkok Hn.
  destruct n as [|[|n]]; [lia..|].
  rewrite publish_S, Hg. cbn [drain].
  cbn [enter_drain enqueue router _eventQueue]. rewrite Hq. cbn [app].
  rewrite (dispatch_objects custom _ n _ [] _ lsale) by (done || lia).
  set (ev := MachineSaleEvent sold mid).
  set (w1 := run_objects lsale ev (shift ev [] (enter_drain (enqueue ev w)))).
  assert (store w1 = snd (handle_objects lsale ev (store w))) as Hs1 by done.
  assert (_eventQueue (router w1) = fst (handle_objects lsale ev (store w))) as Hq1 by done.
  destruct (handle_objects_events lsale ev (store w)) as [Hd Hlen].
  assert (machine_heap (store w1) = machine_heap (store w)) as Hm1.
  { rewrite Hs1. apply handle_objects_machine_heap.
    eapply Forall_impl; [exact Hksale|]. intros l Hl. simpl in Hl.
    unfold ev. simpl. by destruct (kind_at (store w) l) as [[]|]. }
  destruct (drain_derived custom (publish custom (S n)) llow lok _ n w1 Hq1)
    as (w' & Hw' & Hs' & _); try done.
  - eapply Forall_impl; [exact Hklow|]. intros l Hl.
    by rewrite Hs1, handle_objects_kind.
  - eapply Forall_impl; [exact Hkok|]. intros l Hl.
    by rewrite Hs1, handle_objects_kind.
  - lia.
  - rewrite Hw'. eexists. split; [done|]. simpl. by rewrite Hs'.
Qed.

(** C6.  [unsubscribe(type, handler)] leaves under [type] exactly the
    entries that are not [handler], in their order: every copy of
    [handler] is gone.  The other types keep their handlers.  When the
    type was never subscribed the router is returned as it is, and when
    the handler is not registered the list stays the same; no case
    raises.  After [unsubscribe("sale", handler)] on a router at rest,
    when no sale subscriber is left among the handlers of "sale" (and the
    events of the warning subscriber go to handlers that are not
    warning subscribers, as in the program), publishing a sale returns
    and no machine's stock level has changed. *)
Theorem C6_unsubscribe custom n ty handler sold mid w :
  router_wf (router w) →
  handlers_of ty (unsubscribe ty handler (router w))
  = filter (λ h, h ≠ handler) (handlers_of ty (router w))
  ∧ (handler ∉ handlers_of ty (unsubscribe ty handler (router w)))
  ∧ (∀ ty', ty' ≠ ty →
       handlers_of ty' (unsubscribe ty handler (router w)) = handlers_of ty' (router w))
  ∧ (_subscribers (router w) !! ty = None →
       unsubscribe ty handler (router w) = router w)
  ∧ (handler ∉ handlers_of ty (router w) →
       handlers_of ty (unsubscribe ty handler (router w)) = handlers_of ty (router w))
  ∧ (∀ lsale llow lok,
       _isPublishing (router w) = false →
       _eventQueue (router w) = [] →
       handlers_of "sale" (unsubscribe "sale" handler (router w)) = Obj <$> lsale →
       Forall (λ l, kind_at (store w) l ≠ Some KSale) lsale →
       handlers_of "low_stock_warning" (router w) = Obj <$> llow →
       Forall (λ l, kind_at (store w) l ≠ Some KWarning) llow →
       handlers_of "stock_level_ok" (router w) = Obj <$> lok →
       Forall (λ l, kind_at (store w) l ≠ Some KWarning) lok →
       length lsale + length llow + length lok + 4 ≤ n →
       ∃ w', publish custom n (MachineSaleEvent sold mid)
               (set_router (unsubscribe "sale" handler) w) = Normal tt w'
             ∧ machine_heap (store w') = machine_heap (store w)).
Proof.
  intros Hwf. split_and!.
  - apply handlers_of_unsubscribe.
  - rewrite handlers_of_unsubscribe, list_elem_of_filter. by intros [? _].
  - intros ty' Hne. by apply handlers_of_unsubscribe_ne.
  - apply unsubscribe_unknown_type.
  - intros Hh. rewrite handlers_of_unsubscribe. by apply filter_absent.
  - intros lsale llow lok Hg Hq Hsale Hksale Hlow Hklow Hok Hkok Hn.
    apply (publish_sale_no_seller custom n sold mid
             (set_router (unsubscribe "sale" handler) w) lsale llow lok);
      simpl; try done.
    + by rewrite unsubscribe_guard.
    + by rewrite unsubscribe_queue.
    + by rewrite handlers_of_unsubscribe_ne.
    + by rewrite handlers_of_unsubscribe_ne.
Qed.

(** The program's fifth test: the sale subscriber is unsubscribed (twice,
    as the program does); a sale of 2 on machine 001 then leaves every
    stock level as it was. *)
Lemma C6_unsubscribe_witness :
  router_wf (router program_world)
  ∧ handlers_of "sale" (router program_world)
    = [Obj saleSubscriber; Obj stockWarningSubscriber]
  ∧ handlers_of "sale" (unsubscribe "sale" (Obj saleSubscriber) (router program_world))
    = [Obj stockWarningSubscriber]
  ∧ handlers_of "sale"
      (unsubscribe "sale" (Obj saleSubscriber)
         (unsubscribe "sale" (Obj saleSubscriber) (router program_world)))
    = [Obj stockWarningSubscriber]
  ∧ ∃ w', publish no_code 7 (MachineSaleEvent 2 "001")
            (set_router (unsubscribe "sale" (Obj saleSubscriber)) program_world)
          = Normal tt w'
          ∧ machine_heap (store w') = machine_heap (store program_world).
Proof.
  assert (router_wf (router program_world)) as Hwf.
  { unfold program_world. cbn [router].
    repeat apply router_wf_subscribe. apply router_wf_new. }
  pose proof (C6_unsubscribe no_code 7 "sale" (Obj saleSubscriber) 2%Z "001"
                program_world Hwf) as (Hrm & _ & _ & _ & _ & Heff).
  split; [exact Hwf|]. split; [reflexivity|]. split; [by rewrite Hrm|].
  split; [reflexivity|].
  apply (Heff [stockWarningSubscriber] [stockLoggerSubscriber] [stockLoggerSubscriber]);
    try reflexivity; try (repeat constructor; by vm_compute).
Defined.

(** ** Unsubscribing while an event is being dispatched *)

Lemma exec_tame_normal p w :
  tame p → ∃ r w', exec pub_enq p w = Normal r w'.
Proof.
  revert w. induction p as [r|err|e k IH|ty h k IH|ty h k IH|f k IH];
    intros w Hp; simpl in *; eauto; done.
Qed.

Lemma exec_tame_closed P p w :
  tame_closed P → tame p → P w → P (final (exec pub_enq p w)).
Proof.
  intros HP. revert w. induction p as [r|err|e k IH|ty h k IH|ty h k IH|f k IH];
    intros w Hp Hw; simpl in *; try done.
  - apply IH; [done|]. by apply tame_enqueue.
  - apply IH; [done|]. by apply tame_unsubscribe.
  - apply IH; [done|]. by apply tame_store.
Qed.

Lemma push_result_tame_closed P r w : tame_closed P → P w → P (push_result r w).
Proof.
  intros HP. destruct r as [|e|es]; simpl; [done|by apply tame_enqueue|].
  revert w. induction es as [|e es IH]; intros w Hw; simpl; [done|].
  apply IH. by apply tame_enqueue.
Qed.

(** The array the [for] loop runs over is not touched by tame code:
    [unsubscribe] stores a new array. *)
Lemma array_tame_closed a hs :
  tame_closed (λ w, handler_arrays (router w) !! a = Some hs).
Proof.
  split; simpl; try done.
  intros ty h w Ha. unfold unsubscribe.
  destruct (_subscribers (router w) !! ty); [|done]. simpl.
  rewrite lookup_app_l; [done|]. by eapply lookup_lt_Some.
Qed.

Lemma calls_tame_closed c : tame_closed (λ w, calls (ghost w) = c).
Proof. split; simpl; done. Qed.

Lemma wf_tame_closed : tame_closed (λ w, router_wf (router w)).
Proof.
  split; simpl; try done.
  intros ty h w. apply router_wf_unsubscribe.
Qed.

(** Once a handler is gone from a type, tame code does not bring it
    back. *)
Lemma absent_tame_closed ty h :
  tame_closed (λ w, router_wf (router w) ∧ h ∉ handlers_of ty (router w)).
Proof.
  split; simpl; try done.
  intros ty' h' w [Hwf Hh]. split; [by apply router_wf_unsubscribe|].
  destruct (decide (ty = ty')) as [<-|Hne].
  - rewrite handlers_of_unsubscribe, list_elem_of_filter. by intros [_ ?].
  - by rewrite handlers_of_unsubscribe_ne.
Qed.

Lemma exec_unsubscribes ty h p w :
  tame p → unsubscribes ty h p → router_wf (router w) →
  router_wf (router (final (exec pub_enq p w)))
  ∧ h ∉ handlers_of ty (router (final (exec pub_enq p w))).
Proof.
  revert w. induction p as [r|err|e k IH|ty' h' k IH|ty' h' k IH|f k IH];
    intros w Hp Hu Hwf; simpl in *; try done.
  - by apply IH.
  - destruct Hu as [[-> ->]|Hu].
    + apply (exec_tame_closed _ k _ (absent_tame_closed ty h)); [done|]. simpl.
      split; [by apply router_wf_unsubscribe|].
      rewrite handlers_of_unsubscribe, list_elem_of_filter. by intros [? _].
    + apply IH; [done..|]. by apply router_wf_unsubscribe.
  - by apply IH.
Qed.

(** What one call of [handle] keeps, when the code of the [Ext] handlers
    is tame. *)
Lemma handle_tame custom h ev w :
  (∀ k, h = Ext k → ∀ r s, tame (custom k ev r s)) →
  ∃ r w', handle custom pub_enq h ev w = Normal r w'
          ∧ ∀ P, tame_closed P → P w → P w'.
Proof.
  intros Ht. destruct h as [l|k]; simpl.
  - destruct (object_handle l ev (store w)) as [r s]. eexists _, _. split; [done|].
    intros P HP Hw. by apply (tame_store P HP (λ _, s)).
  - specialize (Ht k eq_refl (router w) (store w)).
    destruct (exec_tame_normal _ w Ht) as (r & w' & He). exists r, w'.
    split; [done|]. intros P HP Hw.
    pose proof (exec_tame_closed P _ w HP Ht Hw) as H. by rewrite He in H.
Qed.

Lemma handle_unsubscribes custom k ev ty h w :
  (∀ r s, tame (custom k ev r s)) →
  (∀ r s, unsubscribes ty h (custom k ev r s)) →
  router_wf (router w) →
  router_wf (router (final (handle custom pub_enq (Ext k) ev w)))
  ∧ h ∉ handlers_of ty (router (final (handle custom pub_enq (Ext k) ev w))).
Proof. intros Ht Hu Hwf. simpl. by apply exec_unsubscribes. Qed.

(** The [for] loop over the handlers [drop i hs] that are still to be
    called, when the code of the [Ext] handlers among [hs] is tame. *)
Lemma for_handlers_tame custom a hs ev ls :
  (∀ k, Ext k ∈ hs → ∀ r s, tame (custom k ev r s)) →
  ∀ n i w,
    handler_arrays (router w) !! a = Some hs →
    router_wf (router w) →
    drop i hs = ls →
    length ls < n →
    ∃ w', for_handlers custom pub_enq n a i ev w = Normal tt w'
          ∧ calls (ghost w') = calls (ghost w) ++ ((λ h, (h, ev)) <$> ls)
          ∧ router_wf (router w')
          ∧ ∀ ty h,
              (h ∉ handlers_of ty (router w)
               ∨ ∃ k, Ext k ∈ ls ∧ ∀ r s, unsubscribes ty h (custom k ev r s)) →
              h ∉ handlers_of ty (router w').
Proof.
  intros Ht. induction ls as [|h0 ls IH]; intros n i w Ha Hwf Hd Hn.
  - destruct n as [|n]; [simpl in Hn; lia|]. cbn [for_handlers].
    rewrite Ha. simpl.
    assert (hs !! i = None) as ->.
    { rewrite <- (Nat.add_0_r i), <- lookup_drop, Hd. done. }
    exists w. split_and!; [done|by rewrite app_nil_r|done|].
    intros ty h [Hh|(k & Hk & _)]; [done|]. by apply elem_of_nil in Hk.
  - destruct n as [|n]; [simpl in Hn; lia|]. cbn [for_handlers].
    rewrite Ha. simpl.
    assert (hs !! i = Some h0) as Hi.
    { rewrite <- (Nat.add_0_r i), <- lookup_drop, Hd. done. }
    rewrite Hi.
    assert (h0 ∈ hs) as Hin by (by eapply list_elem_of_lookup_2).
    destruct (handle_tame custom h0 ev (log_call h0 ev w)) as (r & w1 & Hh & Hkeep).
    { intros k ->. by apply Ht. }
    rewrite Hh.
    destruct (IH n (S i) (push_result r w1)) as (w' & Hw' & Hcalls & Hwf' & Habs).
    + apply (push_result_tame_closed _ _ _ (array_tame_closed a hs)).
      by apply (Hkeep _ (array_tame_closed a hs)).
    + apply (push_result_tame_closed _ _ _ wf_tame_closed).
      by apply (Hkeep _ wf_tame_closed).
    + rewrite (drop_S _ _ _ Hi) in Hd. by injection Hd.
    + simpl in Hn. lia.
    + exists w'. split_and!; [done| |done|].
      * rewrite Hcalls.
        rewrite (push_result_tame_closed _ r w1
                   (calls_tame_closed (calls (ghost w) ++ [(h0, ev)])))
          by (by apply (Hkeep _ (calls_tame_closed _))).
        by rewrite <- app_assoc.
      * intros ty h [Hh0|(k & Hk & Hu)].
        -- apply Habs. left.
           apply (push_result_tame_closed _ r w1 (absent_tame_closed ty h)).
           by apply (Hkeep _ (absent_tame_closed ty h)).
        -- apply elem_of_cons in Hk as [<-|Hk].
           ++ apply Habs. left.
              apply (push_result_tame_closed _ r w1 (absent_tame_closed ty h)).
              pose proof (handle_unsubscribes custom k ev ty h (log_call (Ext k) ev w)
                            (Ht k Hin) Hu Hwf) as Hun.
              by rewrite Hh in Hun.
           ++ apply Habs. right. eauto.
Qed.

(** C7.  Unsubscribing in the middle of a dispatch.  The router is
    draining and takes [ev] from the head of its queue; the code of the
    handlers registered for its type may unsubscribe any handler from
    any type (and publish, and change the store), but neither subscribes
    nor throws.  Then the dispatch comes to its end without an exception,
    and [ev] has been handed exactly to the handlers that were
    registered when it was taken, once for each registration and in
    their order.  A handler that one of them unsubscribed is gone from
    the registry afterwards, so the events taken later do not reach
    it. *)
Theorem C7_unsubscribe_in_flight custom m n ev q w :
  _isPublishing (router w) = true →
  router_wf (router w) →
  _eventQueue (router w) = ev :: q →
  (∀ k, Ext k ∈ handlers_of (type ev) (router w) → ∀ r s, tame (custom k ev r s)) →
  length (handlers_of (type ev) (router w)) < n →
  ∃ w', dispatch custom (publish custom (S m)) n ev q w = Normal tt w'
        ∧ calls (ghost w')
          = calls (ghost w) ++ ((λ h, (h, ev)) <$> handlers_of (type ev) (router w))
        ∧ (∀ ty h k,
             Ext k ∈ handlers_of (type ev) (router w) →
             (∀ r s, unsubscribes ty h (custom k ev r s)) →
             h ∉ handlers_of ty (router w'))
        ∧ (∀ ty h, h ∉ handlers_of ty (router w) → h ∉ handlers_of ty (router w')).
Proof.
  intros Hg Hwf Hq Ht Hn. rewrite dispatch_reentrant by done.
  unfold dispatch, handlers_of in *.
  change (_subscribers (router (shift ev q w))) with (_subscribers (router w)).
  destruct (_subscribers (router w) !! type ev) as [a|] eqn:Hty.
  - destruct (handler_arrays (router w) !! a) as [hs|] eqn:Ha.
    + simpl in Ht, Hn.
      destruct (for_handlers_tame custom a hs ev hs Ht n 0 (shift ev q w))
        as (w' & Hw' & Hcalls & _ & Habs); try done.
      exists w'. split_and!; try done.
      * intros ty h k Hk Hu. apply Habs. right. eauto.
      * intros ty h Hh. apply Habs. by left.
    + apply Hwf in Hty. apply lookup_ge_None in Ha. lia.
  - exists (shift ev q w). split_and!; try done.
    + simpl. by rewrite app_nil_r.
    + intros ty h k Hk. by apply elem_of_nil in Hk.
Qed.

(** The first handler unsubscribes the second while the first event of
    type ["x"] is dispatched: the event still reaches both. *)
Lemma C7_unsubscribe_in_flight_witness :
  ∃ w', dispatch unsub_code (publish unsub_code 1) 3 (OtherEvent "x" "001")
          [OtherEvent "x" "002"] unsub_world = Normal tt w'
        ∧ calls (ghost w')
          = [(Ext 0, OtherEvent "x" "001"); (Ext 1, OtherEvent "x" "001")]
        ∧ Ext 1 ∉ handlers_of "x" (router w').
Proof.
  assert (router_wf (router unsub_world)) as Hwf.
  { intros ty a. simpl. intros [<- <-]%lookup_singleton_Some. simpl. lia. }
  assert (∀ k, Ext k ∈ handlers_of (type (OtherEvent "x" "001")) (router unsub_world) →
               ∀ r s, tame (unsub_code k (OtherEvent "x" "001") r s)) as Ht.
  { intros [|k] _ r s; exact I. }
  assert (length (handlers_of (type (OtherEvent "x" "001")) (router unsub_world)) < 3)
    as Hn by (vm_compute; lia).
  destruct (C7_unsubscribe_in_flight unsub_code 0 3 (OtherEvent "x" "001")
              [OtherEvent "x" "002"] unsub_world eq_refl Hwf eq_refl Ht Hn)
    as (w' & Hw' & Hcalls & Hgone & _).
  exists w'. split; [exact Hw'|]. split; [exact Hcalls|].
  apply (Hgone "x" (Ext 1) 0).
  - apply list_elem_of_here.
  - intros r s. left. done.
Defined.

(** In the same drain the second event of type ["x"] only reaches the
    first handler. *)
Example unsub_drain :
  calls (ghost (final (drain unsub_code (publish unsub_code 1) 5 unsub_world)))
  = [(Ext 0, OtherEvent "x" "001"); (Ext 1, OtherEvent "x" "001");
     (Ext 0, OtherEvent "x" "002")].
Proof. vm_compute. reflexivity. Qed.

(** ** The step budget *)

Section Budget.
Variable custom : Code.
Variables pub1 pub2 : Event → World → Outcome unit.
Hypothesis Hpub : ∀ e w, settled (pub1 e w) → pub2 e w = pub1 e w.

Lemma exec_budget p w :
  settled (exec pub1 p w) → exec pub2 p w = exec pub1 p w.
Proof.
  revert w. induction p as [r|err|e k IH|ty h k IH|ty h k IH|f k IH];
    intros w Hs; simpl in *; auto.
  rewrite Hpub by (by destruct (pub1 e w)).
  destruct (pub1 e w) as [[] w1|err w1|w1]; auto.
Qed.

Lemma handle_budget h e w :
  settled (handle custom pub1 h e w) →
  handle custom pub2 h e w = handle custom pub1 h e w.
Proof. destruct h as [l|k]; [done|]. apply exec_budget. Qed.

Lemma for_handlers_budget n n' a i e w :
  n ≤ n' →
  settled (for_handlers custom pub1 n a i e w) →
  for_handlers custom pub2 n' a i e w = for_handlers custom pub1 n a i e w.
Proof.
  revert n' i w. induction n as [|n IH]; intros n' i w Hn Hs; [done|].
  destruct n' as [|n']; [lia|]. cbn [for_handlers] in *.
  destruct (handler_arrays (router w) !! a ≫= (.!! i)) as [h|]; [|done].
  rewrite handle_budget
    by (by destruct (handle custom pub1 h e (log_call h e w))).
  destruct (handle custom pub1 h e (log_call h e w)) as [r w1|err w1|w1]; try done.
  apply IH; [lia|done].
Qed.

Lemma dispatch_budget n n' e q w :
  n ≤ n' →
  settled (dispatch custom pub1 n e q w) →
  dispatch custom pub2 n' e q w = dispatch custom pub1 n e q w.
Proof.
  intros Hn. unfold dispatch.
  destruct (_subscribers (router (shift e q w)) !! type e); [|done].
  by apply for_handlers_budget.
Qed.

Lemma drain_budget n n' w :
  n ≤ n' →
  settled (drain custom pub1 n w) →
  drain custom pub2 n' w = drain custom pub1 n w.
Proof.
  revert n' w. induction n as [|n IH]; intros n' w Hn Hs; [done|].
  destruct n' as [|n']; [lia|]. cbn [drain] in *.
  destruct (_eventQueue (router w)) as [|e q]; [done|].
  rewrite (dispatch_budget n n') by (lia || by destruct (dispatch custom pub1 n e q w)).
  destruct (dispatch custom pub1 n e q w) as [[] w2|err w2|w2]; try done.
  apply IH; [lia|done].
Qed.
End Budget.

(** A call of [publish] that comes to an end within some budget ends in
    the same way within every larger one. *)
Lemma publish_budget custom n n' e w :
  n ≤ n' →
  settled (publish custom n e w) →
  publish custom n' e w = publish custom n e w.
Proof.
  revert n' e w. induction n as [|n IH]; intros n' e w Hn Hs; [done|].
  destruct n' as [|n']; [lia|]. rewrite !publish_S in *.
  destruct (_isPublishing (router w)); [done|].
  assert (∀ e' w', settled (publish custom n e' w') →
            publish custom n' e' w' = publish custom n e' w') as Hpub
    by (intros e' w'; apply IH; lia).
  rewrite (drain_budget custom _ _ Hpub n n'); [done|lia|].
  by destruct (drain custom (publish custom n) n (enter_drain (enqueue e w))).
Qed.

(** ** The record of a run is not read by the program *)

Lemma same_push_result r w1 w2 :
  same_program_state w1 w2 → same_program_state (push_result r w1) (push_result r w2).
Proof.
  rewrite !push_result_add_events. unfold same_program_state. simpl.
  by intros [-> ->].
Qed.

Section Erasure.
Variable custom : Code.
Variables pub1 pub2 : Event → World → Outcome unit.
Hypothesis Hpub : ∀ e w1 w2,
  same_program_state w1 w2 → same_outcome (pub1 e w1) (pub2 e w2).

Lemma exec_same p w1 w2 :
  same_program_state w1 w2 → same_outcome (exec pub1 p w1) (exec pub2 p w2).
Proof.
  revert w1 w2. induction p as [r|err|e k IH|ty h k IH|ty h k IH|f k IH];
    intros w1 w2 Hw; simpl; auto.
  - pose proof (Hpub e w1 w2 Hw) as H.
    destruct (pub1 e w1) as [[] v1|err1 v1|v1], (pub2 e w2) as [[] v2|err2 v2|v2];
      simpl in *; try done. apply IH. by destruct H.
  - apply IH. destruct Hw as [Hr Hs]. split; simpl; congruence.
  - apply IH. destruct Hw as [Hr Hs]. split; simpl; congruence.
  - apply IH. destruct Hw as [Hr Hs]. split; simpl; congruence.
Qed.

Lemma handle_same h e w1 w2 :
  same_program_state w1 w2 →
  same_outcome (handle custom pub1 h e w1) (handle custom pub2 h e w2).
Proof.
  intros Hw. destruct h as [l|k]; simpl.
  - destruct Hw as [Hr Hs]. rewrite Hs.
    destruct (object_handle l e (store w2)) as [r s]. by simpl.
  - destruct Hw as [Hr Hs]. rewrite Hr, Hs. by apply exec_same.
Qed.

Lemma for_handlers_same n a i e w1 w2 :
  same_program_state w1 w2 →
  same_outcome (for_handlers custom pub1 n a i e w1)
               (for_handlers custom pub2 n a i e w2).
Proof.
  revert i w1 w2. induction n as [|n IH]; intros i w1 w2 Hw; [done|].
  cbn [for_handlers]. destruct Hw as [Hr Hs]. rewrite Hr.
  destruct (handler_arrays (router w2) !! a ≫= (.!! i)) as [h|]; [|by simpl].
  pose proof (handle_same h e (log_call h e w1) (log_call h e w2)
                (conj Hr Hs)) as H.
  destruct (handle custom pub1 h e (log_call h e w1)) as [r1 v1|err1 v1|v1],
           (handle custom pub2 h e (log_call h e w2)) as [r2 v2|err2 v2|v2];
    simpl in H; try done.
  destruct H as [-> H]. apply IH. by apply same_push_result.
Qed.

Lemma dispatch_same n e q w1 w2 :
  same_program_state w1 w2 →
  same_outcome (dispatch custom pub1 n e q w1) (dispatch custom pub2 n e q w2).
Proof.
  intros [Hr Hs]. unfold dispatch.
  assert (same_program_state (shift e q w1) (shift e q w2)) as H
    by (split; simpl; congruence).
  change (_subscribers (router (shift e q w1))) with (_subscribers (router w1)).
  change (_subscribers (router (shift e q w2))) with (_subscribers (router w2)).
  rewrite Hr. destruct (_subscribers (router w2) !! type e); [|done].
  by apply for_handlers_same.
Qed.

Lemma drain_same n w1 w2 :
  same_program_state w1 w2 →
  same_outcome (drain custom pub1 n w1) (drain custom pub2 n w2).
Proof.
  revert w1 w2. induction n as [|n IH]; intros w1 w2 Hw; [done|].
  cbn [drain]. destruct Hw as [Hr Hs]. rewrite Hr.
  destruct (_eventQueue (router w2)) as [|e q]; [done|].
  pose proof (dispatch_same n e q w1 w2 (conj Hr Hs)) as H.
  destruct (dispatch custom pub1 n e q w1) as [[] v1|err1 v1|v1],
           (dispatch custom pub2 n e q w2) as [[] v2|err2 v2|v2];
    simpl in H; try done.
  apply IH. by destruct H.
Qed.
End Erasure.

(** What [publish] does to the router and the store, and how it ends,
    does not depend on the record kept in [ghost]. *)
Lemma publish_same custom n e w1 w2 :
  same_program_state w1 w2 →
  same_outcome (publish custom n e w1) (publish custom n e w2).
Proof.
  revert e w1 w2. induction n as [|n IH]; intros e w1 w2 Hw; [done|].
  rewrite !publish_S. destruct Hw as [Hr Hs]. rewrite Hr.
  destruct (_isPublishing (router w2)).
  - split; [done|]. split; simpl; congruence.
  - assert (same_program_state (enter_drain (enqueue e w1)) (enter_drain (enqueue e w2)))
      as H0 by (split; simpl; congruence).
    pose proof (drain_same custom (publish custom n) (publish custom n) IH n _ _ H0) as H.
    destruct (drain custom (publish custom n) n (enter_drain (enqueue e w1)))
      as [[] v1|err1 v1|v1],
      (drain custom (publish custom n) n (enter_drain (enqueue e w2)))
      as [[] v2|err2 v2|v2]; simpl in H; try done.
    all: destruct H as [He [Hr2 Hs2]]; split; [done|]; split; simpl; congruence.
Qed.

(** ** The router between two calls *)

Lemma at_rest_new s :
  at_rest {| router := new_PublishSubscribeService; store := s; ghost := no_ghost |}.
Proof. done. Qed.

Lemma at_rest_subscribe ty h w : at_rest w → at_rest (set_router (subscribe ty h) w).
Proof.
  intros (Hg & Hq & Hd). unfold at_rest. simpl.
  by rewrite subscribe_guard, subscribe_queue.
Qed.

Lemma at_rest_unsubscribe ty h w : at_rest w → at_rest (set_router (unsubscribe ty h) w).
Proof.
  intros (Hg & Hq & Hd). unfold at_rest. simpl.
  by rewrite unsubscribe_guard, unsubscribe_queue.
Qed.

Lemma at_rest_store f w : at_rest w → at_rest (set_store f w).
Proof. done. Qed.

(** A call of [publish] that returns leaves the router at rest. *)
Lemma at_rest_publish custom n e w w' :
  at_rest w → publish custom n e w = Normal tt w' → at_rest w'.
Proof.
  intros (Hg & Hq & Hd) Hp.
  assert (guard_ok w) as Hok by (unfold guard_ok; by rewrite Hg, Hd).
  pose proof (publish_guard custom n e w Hok) as Hok'. rewrite Hp in Hok'.
  destruct n as [|[|n]]; [done| |].
  - by rewrite publish_S, Hg in Hp.
  - rewrite publish_top in Hp by done.
    destruct (drain custom pub_enq (S n) (enter_drain (enqueue e w)))
      as [[] w2|err w2|w2] eqn:Hdr; [|done..].
    injection Hp as <-. apply drain_normal_empty in Hdr.
    unfold guard_ok in Hok'. unfold at_rest. simpl in *. by rewrite Hdr.
Qed.

(** ** The keys of the warning subscriber's map *)

Lemma keyed_by_id_constructor machines s :
  keyed_by_id (fst (new_StockWarningSubscriber machines s))
              (snd (new_StockWarningSubscriber machines s)).
Proof.
  intros mp k m b. simpl. rewrite list_lookup_middle by done.
  intros [= <-] Hk. by apply warning_map_keyed in Hk.
Qed.

Lemma keyed_by_id_addMachine self machine s :
  keyed_by_id self s → keyed_by_id self (addMachine self machine s).
Proof.
  intros Hkey mp k m b. unfold addMachine.
  destruct (subscriber_heap s !! self) as [[ms|ms|mp0|ms]|] eqn:Hs;
    try (simpl; rewrite Hs; done).
  destruct (id_of s machine) as [i|] eqn:Hi; [|by apply Hkey].
  simpl. rewrite list_lookup_insert_eq by (by eapply lookup_lt_Some).
  intros [= <-]. destruct (decide (i = k)) as [->|Hne].
  - rewrite lookup_insert_eq. by intros [= <- <-].
  - rewrite lookup_insert_ne by done. by apply Hkey.
Qed.

(** ** Subscribing while an event is being dispatched *)

(** The first handler subscribes a second one to the type of the event
    in flight: the second one is called for that event. *)
Example subscribe_in_flight :
  handlers_of "x" (router sub_world) = [Ext 0]
  ∧ calls (ghost (final (dispatch sub_code (publish sub_code 1) 4
                           (OtherEvent "x" "001") [] sub_world)))
    = [(Ext 0, OtherEvent "x" "001"); (Ext 1, OtherEvent "x" "001")].
Proof. split; vm_compute; reflexivity. Qed.

(** ** The sale, refill and warning subscribers together *)

Lemma crossing_derived lvl b mid :
  Forall (λ e, is_derived e = true) (crossing lvl b mid)
  ∧ length (crossing lvl b mid) ≤ 1.
Proof.
  unfold crossing.
  destruct ((lvl <? 3)%Z && negb b); [by repeat constructor|].
  destruct ((lvl >=? 3)%Z && b); by repeat constructor.
Qed.

(** One call of the warning subscriber's [handle] for a machine it
    knows: the event of the crossing, if any, and the flag set to the
    side of the threshold the level is on. *)
Lemma object_handle_crossing W mp ev s m b M :
  subscriber_heap s !! W = Some (StockWarningSubscriber mp) →
  mp !! machineId ev = Some (m, b) →
  machine_heap s !! m = Some M →
  events_of (fst (object_handle W ev s))
  = crossing (Machine.stockLevel M) b (Machine.id M)
  ∧ machine_heap (snd (object_handle W ev s)) = machine_heap s
  ∧ array_heap (snd (object_handle W ev s)) = array_heap s
  ∧ (∀ l, l ≠ W →
       subscriber_heap (snd (object_handle W ev s)) !! l = subscriber_heap s !! l)
  ∧ warning_state W (snd (object_handle W ev s)) !! machineId ev
    = Some (m, (Machine.stockLevel M <? 3)%Z).
Proof.
  intros Hs Hm HM. unfold crossing.
  assert (warning_state W s !! machineId ev = Some (m, b)) as Hws
    by (unfold warning_state; by rewrite Hs).
  assert (∀ b', warning_state W
            (set_subscriber_heap
               (<[W := StockWarningSubscriber (<[machineId ev := (m, b')]> mp)]>) s)
            !! machineId ev = Some (m, b')) as Hset.
  { intros b'. unfold warning_state. simpl.
    rewrite list_lookup_insert_eq by (by eapply lookup_lt_Some).
    by rewrite lookup_insert_eq. }
  destruct (Machine.stockLevel M <? 3)%Z eqn:Hlt; destruct b; simpl.
  - apply Z.ltb_lt in Hlt.
    rewrite (warning_handle_same W mp ev s m true M) by
      (done || by rewrite bool_decide_eq_true_2).
    assert ((Machine.stockLevel M >=? 3)%Z = false) as ->
      by (rewrite Z.geb_leb; apply Z.leb_gt; lia).
    done.
  - apply Z.ltb_lt in Hlt.
    rewrite (warning_handle_low W mp ev s m M) by done. simpl.
    split_and!; try done. intros l Hl. by rewrite list_lookup_insert_ne.
  - apply Z.ltb_ge in Hlt.
    rewrite (warning_handle_ok W mp ev s m M) by (done || lia). simpl.
    assert ((Machine.stockLevel M >=? 3)%Z = true) as ->
      by (rewrite Z.geb_leb; apply Z.leb_le; lia).
    split_and!; try done. intros l Hl. by rewrite list_lookup_insert_ne.
  - apply Z.ltb_ge in Hlt.
    rewrite (warning_handle_same W mp ev s m false M) by
      (done || by rewrite bool_decide_eq_false_2; [|lia]).
    by rewrite andb_false_r.
Qed.

Lemma id_of_add_stock d m s x :
  id_of (set_machine_heap (alter (Machine.add_stock d) m) s) x = id_of s x.
Proof.
  unfold id_of. simpl. destruct (decide (m = x)) as [->|Hne].
  - rewrite list_lookup_alter_eq. by destruct (machine_heap s !! x).
  - by rewrite list_lookup_alter_ne.
Qed.

Lemma findIndex_ids s s' mid a :
  (∀ x, id_of s' x = id_of s x) → findIndex s' mid a = findIndex s mid a.
Proof.
  intros Hid. unfold findIndex. induction a as [|x a IH]; [done|].
  cbn [list_find]. rewrite IH.
  destruct (decide (id_of s x = Some mid)) as [Hx|Hx].
  - rewrite decide_True by (by rewrite Hid). done.
  - rewrite decide_False by (by rewrite Hid). done.
Qed.

Lemma getMachines_eq self s s' :
  subscriber_heap s' !! self = subscriber_heap s !! self →
  array_heap s' = array_heap s →
  getMachines self s' = getMachines self s.
Proof. intros Hs Ha. unfold getMachines. by rewrite Hs, Ha. Qed.

Lemma finds_eq self mid s s' :
  subscriber_heap s' !! self = subscriber_heap s !! self →
  array_heap s' = array_heap s →
  (∀ x, id_of s' x = id_of s x) →
  finds self mid s' = finds self mid s.
Proof.
  intros Hs Ha Hid. unfold finds.
  by rewrite (getMachines_eq self s s'), (findIndex_ids s s').
Qed.

Lemma object_handle_sale_finds self mid sold m s :
  kind_at s self = Some KSale →
  finds self mid s = Some m →
  object_handle self (MachineSaleEvent sold mid) s
  = (RVoid, set_machine_heap (alter (Machine.add_stock (- sold)) m) s).
Proof.
  unfold kind_at, finds. intros Hk Hf.
  destruct (subscriber_heap s !! self) as [[ms|ms|mp|ms]|] eqn:Hs; try done.
  rewrite (object_handle_sale self ms) by done. cbn [machineId].
  destruct (findIndex s mid (getMachines self s)) as [[k m']|]; [|done].
  by injection Hf as ->.
Qed.

Lemma object_handle_refill_finds self mid refill m s :
  kind_at s self = Some KRefill →
  finds self mid s = Some m →
  object_handle self (MachineRefillEvent refill mid) s
  = (RVoid, set_machine_heap (alter (Machine.add_stock refill) m) s).
Proof.
  unfold kind_at, finds, getMachines. intros Hk Hf.
  destruct (subscriber_heap s !! self) as [[ms|ms|mp|ms]|] eqn:Hs; try done.
  unfold object_handle, refill_handle. rewrite Hs. cbn [machineId].
  destruct (findIndex s mid _) as [[k m']|]; [|done].
  by injection Hf as ->.
Qed.

(** Publishing an event for the machine whose first handler [first] adds
    [d] to the stock and whose second handler is the warning subscriber: the
    call returns, the wiring is as before with the level [lvl + d] and
    the flag on the side of the threshold the new level is on, and what
    was enqueued is the event and, if the threshold was crossed, the
    event of the crossing. *)
Lemma publish_stock_change custom n ev d first sale refill warn m mid lvl b llow lok w :
  shop sale refill warn m mid lvl b llow lok w →
  handlers_of (type ev) (router w) = [Obj first; Obj warn] →
  machineId ev = mid →
  object_handle first ev (store w)
  = (RVoid, set_machine_heap (alter (Machine.add_stock d) m) (store w)) →
  length llow + length lok + 6 ≤ n →
  ∃ w', publish custom n ev w = Normal tt w'
        ∧ shop sale refill warn m mid (lvl + d) (lvl + d <? 3)%Z llow lok w'
        ∧ enqueued (ghost w') = enqueued (ghost w) ++ ev :: crossing (lvl + d) b mid.
Proof.
  intros [Hg Hq Hsale Hrefill Hlow Hok Hqlow Hqok HS HSf HR HRf HW Hlvl] Hh Hmid HX Hn.
  set (s := store w) in *.
  set (s1 := set_machine_heap (alter (Machine.add_stock d) m) s) in *.
  assert (∃ mp, subscriber_heap s !! warn = Some (StockWarningSubscriber mp)
                ∧ mp !! mid = Some (m, b)) as (mp & HWs & Hmp).
  { unfold warning_state in HW.
    destruct (subscriber_heap s !! warn) as [[?|?|mp|?]|]; try done. eauto. }
  assert (machine_heap s1 !! m
          = Some {| Machine.stockLevel := lvl + d; Machine.id := mid |}) as Hlvl1.
  { unfold s1. simpl. by rewrite list_lookup_alter_eq, Hlvl. }
  rewrite <- Hmid in Hmp.
  destruct (object_handle_crossing warn mp ev s1 m b _ HWs Hmp Hlvl1)
    as (Hev & Hmh & Hah & Hsh & Hws). simpl in Hev. rewrite Hmid in Hws.
  set (s2 := snd (object_handle warn ev s1)) in *.
  assert (handle_objects [first; warn] ev s = (crossing (lvl + d) b mid, s2)) as Ho.
  { simpl. fold s. rewrite HX. fold s1. unfold s2.
    destruct (object_handle warn ev s1) as [r2 s2']. simpl in *.
    by rewrite Hev, app_nil_r. }
  assert (∀ l, kind_at s2 l = kind_at s l) as Hkind.
  { intros l. change s2 with (snd (crossing (lvl + d) b mid, s2)).
    rewrite <- Ho. apply handle_objects_kind. }
  destruct (crossing_derived (lvl + d) b mid) as [Hder Hlen].
  destruct n as [|[|n]]; [lia..|].
  rewrite publish_S, Hg. cbn [drain].
  cbn [enter_drain enqueue router _eventQueue]. rewrite Hq. cbn [app].
  rewrite (dispatch_objects custom _ n ev [] _ [first; warn]) by (done || simpl; lia).
  set (w1 := run_objects [first; warn] ev (shift ev [] (enter_drain (enqueue ev w)))).
  assert (store w1 = s2 ∧ _eventQueue (router w1) = crossing (lvl + d) b mid
          ∧ enqueued (ghost w1)
            = (enqueued (ghost w) ++ [ev]) ++ crossing (lvl + d) b mid)
    as (Hs1 & Hq1 & He1).
  { unfold w1, run_objects.
    cbn [store router ghost _eventQueue enqueued shift enter_drain enqueue].
    fold s. by rewrite Ho. }
  destruct (drain_derived custom (publish custom (S n)) llow lok _ n w1 Hq1)
    as (w2 & Hw2 & Hs2 & He2 & Hsub2 & Harr2 & Hg2 & Hd2); try done.
  { rewrite Hs1. eapply Forall_impl; [exact Hqlow|]. intros l Hl. by rewrite Hkind. }
  { rewrite Hs1. eapply Forall_impl; [exact Hqok|]. intros l Hl. by rewrite Hkind. }
  { lia. }
  rewrite Hw2. eexists. split; [done|].
  assert (∀ ty, handlers_of ty (router (release (leave_drain w2)))
                = handlers_of ty (router w)) as Hreg.
  { intros ty. unfold handlers_of. simpl. by rewrite Hsub2, Harr2. }
  assert (∀ x, id_of s2 x = id_of s x) as Hids.
  { intros x. unfold id_of at 1. rewrite Hmh. apply id_of_add_stock. }
  assert (sale ≠ warn ∧ refill ≠ warn) as [HSW HRW].
  { split; intros ->; unfold kind_at in *; by rewrite HWs in *. }
  split; [split|].
  - done.
  - simpl. by apply drain_normal_empty in Hw2.
  - by rewrite Hreg.
  - by rewrite Hreg.
  - by rewrite Hreg.
  - by rewrite Hreg.
  - simpl. rewrite Hs2, Hs1. eapply Forall_impl; [exact Hqlow|].
    intros l Hl. by rewrite Hkind.
  - simpl. rewrite Hs2, Hs1. eapply Forall_impl; [exact Hqok|].
    intros l Hl. by rewrite Hkind.
  - simpl. by rewrite Hs2, Hs1, Hkind.
  - simpl. rewrite Hs2, Hs1. rewrite (finds_eq sale mid s s2); [done| |done..].
    by rewrite Hsh.
  - simpl. by rewrite Hs2, Hs1, Hkind.
  - simpl. rewrite Hs2, Hs1. rewrite (finds_eq refill mid s s2); [done| |done..].
    by rewrite Hsh.
  - simpl. by rewrite Hs2, Hs1.
  - simpl. by rewrite Hs2, Hs1, Hmh.
  - simpl. rewrite He2, He1. by rewrite <- app_assoc.
Qed.

Lemma crossing_low lvl b mid :
  crossing lvl b mid = [LowStockWarningEvent mid] ↔ (lvl < 3)%Z ∧ b = false.
Proof.
  unfold crossing. destruct (lvl <? 3)%Z eqn:Hlt; destruct b; simpl.
  - apply Z.ltb_lt in Hlt.
    assert ((lvl >=? 3)%Z = false) as ->
      by (rewrite Z.geb_leb; apply Z.leb_gt; lia).
    split; [done|by intros []].
  - apply Z.ltb_lt in Hlt. done.
  - apply Z.ltb_ge in Hlt. destruct (lvl >=? 3)%Z; (split; [done|by intros []]).
  - apply Z.ltb_ge in Hlt. rewrite andb_false_r. split; [done|]. intros []. lia.
Qed.

Lemma crossing_ok lvl b mid :
  crossing lvl b mid = [StockLevelOkEvent mid] ↔ (lvl >= 3)%Z ∧ b = true.
Proof.
  unfold crossing. destruct (lvl <? 3)%Z eqn:Hlt; destruct b; simpl.
  - apply Z.ltb_lt in Hlt.
    assert ((lvl >=? 3)%Z = false) as ->
      by (rewrite Z.geb_leb; apply Z.leb_gt; lia).
    split; [done|]. intros []. lia.
  - split; [done|by intros []].
  - apply Z.ltb_ge in Hlt.
    assert ((lvl >=? 3)%Z = true) as ->
      by (rewrite Z.geb_leb; apply Z.leb_le; lia).
    split; [|done]. intros _. split; [lia|done].
  - rewrite andb_false_r. split; [done|by intros []].
Qed.

Lemma crossing_none lvl b mid :
  crossing lvl b mid = [] ↔ b = bool_decide (lvl < 3)%Z.
Proof.
  unfold crossing. destruct (lvl <? 3)%Z eqn:Hlt; destruct b; simpl.
  - apply Z.ltb_lt in Hlt.
    assert ((lvl >=? 3)%Z = false) as ->
      by (rewrite Z.geb_leb; apply Z.leb_gt; lia).
    by rewrite bool_decide_eq_true_2.
  - apply Z.ltb_lt in Hlt. by rewrite bool_decide_eq_true_2.
  - apply Z.ltb_ge in Hlt.
    assert ((lvl >=? 3)%Z = true) as ->
      by (rewrite Z.geb_leb; apply Z.leb_le; lia).
    by rewrite bool_decide_eq_false_2 by lia.
  - apply Z.ltb_ge in Hlt. rewrite andb_false_r.
    by rewrite bool_decide_eq_false_2 by lia.
Qed.

(** A sale in the program's wiring. *)
Lemma publish_sale custom n sale refill warn m mid llow lok lvl b sold v :
  length llow + length lok + 6 ≤ n →
  shop sale refill warn m mid lvl b llow lok v →
  ∃ v', publish custom n (MachineSaleEvent sold mid) v = Normal tt v'
        ∧ shop sale refill warn m mid (lvl - sold) (lvl - sold <? 3)%Z llow lok v'
        ∧ enqueued (ghost v')
          = enqueued (ghost v)
            ++ MachineSaleEvent sold mid :: crossing (lvl - sold) b mid.
Proof.
  intros Hn Hshop. rewrite <- Z.add_opp_r.
  apply (publish_stock_change custom n _ (- sold) sale); try done.
  - apply Hshop.
  - apply object_handle_sale_finds; apply Hshop.
Qed.

(** A refill in the program's wiring. *)
Lemma publish_refill custom n sale refill warn m mid llow lok lvl b qty v :
  length llow + length lok + 6 ≤ n →
  shop sale refill warn m mid lvl b llow lok v →
  ∃ v', publish custom n (MachineRefillEvent qty mid) v = Normal tt v'
        ∧ shop sale refill warn m mid (lvl + qty) (lvl + qty <? 3)%Z llow lok v'
        ∧ enqueued (ghost v')
          = enqueued (ghost v)
            ++ MachineRefillEvent qty mid :: crossing (lvl + qty) b mid.
Proof.
  intros Hn Hshop.
  apply (publish_stock_change custom n _ qty refill); try done.
  - apply Hshop.
  - apply object_handle_refill_finds; apply Hshop.
Qed.

(** The program's set-up is such a wiring, for each of its machines;
    here for machine 001. *)
Lemma program_shop :
  shop saleSubscriber refillSubscriber stockWarningSubscriber 0 "001" 10 false
    [stockLoggerSubscriber] [stockLoggerSubscriber] program_world.
Proof.
  split; try reflexivity; repeat constructor; by vm_compute.
Qed.

(** The program's first and second test, evaluated. *)
Example program_tests :
  publish no_code 8 (MachineSaleEvent 4 "001") program_world = Normal tt test1_sale1
  ∧ publish no_code 8 (MachineSaleEvent 4 "001") test1_sale1 = Normal tt test1_sale2
  ∧ publish no_code 8 (MachineSaleEvent 1 "001") test1_sale2 = Normal tt test1_sale3
  ∧ publish no_code 8 (MachineRefillEvent 2 "001") test1_sale3 = Normal tt test2_refill1
  ∧ publish no_code 8 (MachineRefillEvent 5 "001") test2_refill1 = Normal tt test2_refill2
  ∧ level "001" <$> (store <$> [test1_sale1; test1_sale2; test1_sale3;
                                test2_refill1; test2_refill2])
    = [Some 6; Some 2; Some 1; Some 3; Some 8]%Z
  ∧ enqueued (ghost test2_refill2)
    = [MachineSaleEvent 4 "001";
       MachineSaleEvent 4 "001"; LowStockWarningEvent "001";
       MachineSaleEvent 1 "001";
       MachineRefillEvent 2 "001"; StockLevelOkEvent "001";
       MachineRefillEvent 5 "001"]
  ∧ calls (ghost test2_refill2)
    = [(Obj saleSubscriber, MachineSaleEvent 4 "001");
       (Obj stockWarningSubscriber, MachineSaleEvent 4 "001");
       (Obj saleSubscriber, MachineSaleEvent 4 "001");
       (Obj stockWarningSubscriber, MachineSaleEvent 4 "001");
       (Obj stockLoggerSubscriber, LowStockWarningEvent "001");
       (Obj saleSubscriber, MachineSaleEvent 1 "001");
       (Obj stockWarningSubscriber, MachineSaleEvent 1 "001");
       (Obj refillSubscriber, MachineRefillEvent 2 "001");
       (Obj stockWarningSubscriber, MachineRefillEvent 2 "001");
       (Obj stockLoggerSubscriber, StockLevelOkEvent "001");
       (Obj refillSubscriber, MachineRefillEvent 5 "001");
       (Obj stockWarningSubscriber, MachineRefillEvent 5 "001")].
Proof. split_and!; vm_compute; reflexivity. Qed.

(** C4.  Low-stock edge.  Take a machine at level 10 that the warning
    subscriber has as OK, with the sale subscriber and then the warning
    subscriber registered under "sale".  Publishing sales of 4, 4 and 1
    takes the level to 6, 2 and 1; the first and the third call enqueue
    nothing but the sale, the second enqueues the sale and the one
    [LowStockWarningEvent]; afterwards the machine is WARNED.  For every
    level and state, a sale enqueues that event exactly when the level
    after the sale is below 3 and the state was OK.  And one call of the
    warning subscriber's [handle] takes a known machine from OK to
    WARNED and returns the [LowStockWarningEvent] exactly when the level
    it reads is below 3 and the state is OK; it returns a low-stock
    event in no other case. *)
Theorem C4_low_stock_edge custom n sale refill warn m mid llow lok w :
  shop sale refill warn m mid 10 false llow lok w →
  length llow + length lok + 6 ≤ n →
  (∃ w1 w2 w3,
      publish custom n (MachineSaleEvent 4 mid) w = Normal tt w1
      ∧ shop sale refill warn m mid 6 false llow lok w1
      ∧ enqueued (ghost w1) = enqueued (ghost w) ++ [MachineSaleEvent 4 mid]
      ∧ publish custom n (MachineSaleEvent 4 mid) w1 = Normal tt w2
      ∧ shop sale refill warn m mid 2 true llow lok w2
      ∧ enqueued (ghost w2)
        = enqueued (ghost w1) ++ [MachineSaleEvent 4 mid; LowStockWarningEvent mid]
      ∧ publish custom n (MachineSaleEvent 1 mid) w2 = Normal tt w3
      ∧ shop sale refill warn m mid 1 true llow lok w3
      ∧ enqueued (ghost w3) = enqueued (ghost w2) ++ [MachineSaleEvent 1 mid])
  ∧ (∀ lvl b sold v,
       shop sale refill warn m mid lvl b llow lok v →
       ∃ v', publish custom n (MachineSaleEvent sold mid) v = Normal tt v'
             ∧ shop sale refill warn m mid (lvl - sold) (lvl - sold <? 3)%Z llow lok v'
             ∧ (enqueued (ghost v')
                = enqueued (ghost v)
                  ++ [MachineSaleEvent sold mid; LowStockWarningEvent mid]
                ↔ (lvl - sold < 3)%Z ∧ b = false))
  ∧ (∀ self mp ev s m' b M r s',
       subscriber_heap s !! self = Some (StockWarningSubscriber mp) →
       mp !! machineId ev = Some (m', b) →
       machine_heap s !! m' = Some M →
       object_handle self ev s = (r, s') →
       ((b = false ∧ warned self (machineId ev) s' = Some true
         ∧ r = ROne (LowStockWarningEvent (Machine.id M)))
        ↔ ((Machine.stockLevel M < 3)%Z ∧ b = false))
       ∧ ((∃ i, r = ROne (LowStockWarningEvent i)) →
          (Machine.stockLevel M < 3)%Z ∧ b = false)).
Proof.
  intros Hshop Hn. split_and!.
  - destruct (publish_sale custom n _ _ _ _ _ _ _ _ _ 4%Z w Hn Hshop)
      as (w1 & Hp1 & Hs1 & He1).
    destruct (publish_sale custom n _ _ _ _ _ _ _ _ _ 4%Z w1 Hn Hs1)
      as (w2 & Hp2 & Hs2 & He2).
    destruct (publish_sale custom n _ _ _ _ _ _ _ _ _ 1%Z w2 Hn Hs2)
      as (w3 & Hp3 & Hs3 & He3).
    exists w1, w2, w3. split_and!; done.
  - intros lvl b sold v Hv.
    destruct (publish_sale custom n _ _ _ _ _ _ _ _ _ sold v Hn Hv)
      as (v' & Hp & Hs & He).
    exists v'. split_and!; [done..|]. rewrite He, <- crossing_low.
    split.
    + intros H%app_inv_head. by injection H.
    + by intros ->.
  - intros self mp ev s m' b M r s' Hs Hm HM Hh. split.
    + destruct (decide (Machine.stockLevel M < 3)%Z) as [Hl|Hl]; destruct b.
      * split; [by intros []|by intros []].
      * rewrite (warning_handle_low self mp ev s m' M) in Hh by done.
        injection Hh as <- <-. rewrite warned_set by done. by split.
      * split; [by intros []|by intros []].
      * split; [|by intros []]. intros (_ & _ & ->).
        rewrite (warning_handle_same self mp ev s m' false M) in Hh; [done..|].
        by rewrite bool_decide_eq_false_2.
    + intros [i ->].
      destruct (decide (Machine.stockLevel M < 3)%Z) as [Hl|Hl]; destruct b.
      * rewrite (warning_handle_same self mp ev s m' true M) in Hh; [done..|].
        by rewrite bool_decide_eq_true_2.
      * done.
      * rewrite (warning_handle_ok self mp ev s m' M) in Hh by (done || lia). done.
      * rewrite (warning_handle_same self mp ev s m' false M) in Hh; [done..|].
        by rewrite bool_decide_eq_false_2.
Qed.

(** The program's first test is an instance. *)
Lemma C4_low_stock_edge_witness :
  ∃ w1 w2 w3,
    publish no_code 8 (MachineSaleEvent 4 "001") program_world = Normal tt w1
    ∧ shop saleSubscriber refillSubscriber stockWarningSubscriber 0 "001" 6 false
        [stockLoggerSubscriber] [stockLoggerSubscriber] w1
    ∧ enqueued (ghost w1) = enqueued (ghost program_world) ++ [MachineSaleEvent 4 "001"]
    ∧ publish no_code 8 (MachineSaleEvent 4 "001") w1 = Normal tt w2
    ∧ shop saleSubscriber refillSubscriber stockWarningSubscriber 0 "001" 2 true
        [stockLoggerSubscriber] [stockLoggerSubscriber] w2
    ∧ enqueued (ghost w2)
      = enqueued (ghost w1) ++ [MachineSaleEvent 4 "001"; LowStockWarningEvent "001"]
    ∧ publish no_code 8 (MachineSaleEvent 1 "001") w2 = Normal tt w3
    ∧ shop saleSubscriber refillSubscriber stockWarningSubscriber 0 "001" 1 true
        [stockLoggerSubscriber] [stockLoggerSubscriber] w3
    ∧ enqueued (ghost w3) = enqueued (ghost w2) ++ [MachineSaleEvent 1 "001"].
Proof.
  assert (length [stockLoggerSubscriber] + length [stockLoggerSubscriber] + 6 ≤ 8)
    as Hn by (simpl; lia).
  exact (proj1 (C4_low_stock_edge no_code 8 _ _ _ _ _ _ _ _ program_shop Hn)).
Defined.

(** C5.  Recovery edge.  Take a machine at level 1 that the warning
    subscriber has as WARNED, with the refill subscriber and then the
    warning subscriber registered under "refill".  Publishing a refill of
    2 takes the level to 3 and enqueues the refill and the one
    [StockLevelOkEvent]; a further refill of 5 takes the level to 8 and
    enqueues nothing but the refill; afterwards the machine is OK.  For
    every level and state, a refill enqueues the recovered event exactly
    when the level after the refill is at least 3 and the state was
    WARNED, and it enqueues nothing but the refill exactly when the
    recorded state agrees with the side of the threshold the new level is
    on.  One call of the warning subscriber's [handle] takes a known
    machine from WARNED to OK and returns the [StockLevelOkEvent] exactly
    when the level it reads is at least 3 and the state is WARNED; it
    returns a recovered event in no other case; and when state and side
    agree it returns nothing and changes nothing. *)
Theorem C5_recovery_edge custom n sale refill warn m mid llow lok w :
  shop sale refill warn m mid 1 true llow lok w →
  length llow + length lok + 6 ≤ n →
  (∃ w1 w2,
      publish custom n (MachineRefillEvent 2 mid) w = Normal tt w1
      ∧ shop sale refill warn m mid 3 false llow lok w1
      ∧ enqueued (ghost w1)
        = enqueued (ghost w) ++ [MachineRefillEvent 2 mid; StockLevelOkEvent mid]
      ∧ publish custom n (MachineRefillEvent 5 mid) w1 = Normal tt w2
      ∧ shop sale refill warn m mid 8 false llow lok w2
      ∧ enqueued (ghost w2) = enqueued (ghost w1) ++ [MachineRefillEvent 5 mid])
  ∧ (∀ lvl b qty v,
       shop sale refill warn m mid lvl b llow lok v →
       ∃ v', publish custom n (MachineRefillEvent qty mid) v = Normal tt v'
             ∧ shop sale refill warn m mid (lvl + qty) (lvl + qty <? 3)%Z llow lok v'
             ∧ (enqueued (ghost v')
                = enqueued (ghost v)
                  ++ [MachineRefillEvent qty mid; StockLevelOkEvent mid]
                ↔ (lvl + qty >= 3)%Z ∧ b = true)
             ∧ (enqueued (ghost v') = enqueued (ghost v) ++ [MachineRefillEvent qty mid]
                ↔ b = bool_decide (lvl + qty < 3)%Z))
  ∧ (∀ self mp ev s m' b M r s',
       subscriber_heap s !! self = Some (StockWarningSubscriber mp) →
       mp !! machineId ev = Some (m', b) →
       machine_heap s !! m' = Some M →
       object_handle self ev s = (r, s') →
       ((b = true ∧ warned self (machineId ev) s' = Some false
         ∧ r = ROne (StockLevelOkEvent (Machine.id M)))
        ↔ ((Machine.stockLevel M >= 3)%Z ∧ b = true))
       ∧ ((∃ i, r = ROne (StockLevelOkEvent i)) →
          (Machine.stockLevel M >= 3)%Z ∧ b = true)
       ∧ (b = bool_decide (Machine.stockLevel M < 3)%Z → r = RVoid ∧ s' = s)).
Proof.
  intros Hshop Hn. split_and!.
  - destruct (publish_refill custom n _ _ _ _ _ _ _ _ _ 2%Z w Hn Hshop)
      as (w1 & Hp1 & Hs1 & He1).
    destruct (publish_refill custom n _ _ _ _ _ _ _ _ _ 5%Z w1 Hn Hs1)
      as (w2 & Hp2 & Hs2 & He2).
    exists w1, w2. split_and!; done.
  - intros lvl b qty v Hv.
    destruct (publish_refill custom n _ _ _ _ _ _ _ _ _ qty v Hn Hv)
      as (v' & Hp & Hs & He).
    exists v'. split_and!; [done..| |].
    + rewrite He, <- crossing_ok. split.
      * intros H%app_inv_head. by injection H.
      * by intros ->.
    + rewrite He, <- crossing_none. split.
      * intros H%app_inv_head. by injection H.
      * by intros ->.
  - intros self mp ev s m' b M r s' Hs Hm HM Hh. split_and!.
    + destruct (decide (Machine.stockLevel M < 3)%Z) as [Hl|Hl]; destruct b.
      * split; [|intros []; lia]. intros (_ & _ & ->).
        rewrite (warning_handle_same self mp ev s m' true M) in Hh; [done..|].
        by rewrite bool_decide_eq_true_2.
      * split; [by intros []|by intros []].
      * rewrite (warning_handle_ok self mp ev s m' M) in Hh by (done || lia).
        injection Hh as <- <-. rewrite warned_set by done. split; [|done].
        intros _. split; [lia|done].
      * split; [by intros []|by intros []].
    + intros [i ->].
      destruct (decide (Machine.stockLevel M < 3)%Z) as [Hl|Hl]; destruct b.
      * rewrite (warning_handle_same self mp ev s m' true M) in Hh; [done..|].
        by rewrite bool_decide_eq_true_2.
      * by rewrite (warning_handle_low self mp ev s m' M) in Hh.
      * split; [lia|done].
      * rewrite (warning_handle_same self mp ev s m' false M) in Hh; [done..|].
        by rewrite bool_decide_eq_false_2.
    + intros Hb. rewrite (warning_handle_same self mp ev s m' b M) in Hh by done.
      by injection Hh as <- <-.
Qed.

(** The program after its first test is such a wiring, with machine 001
    at 1 and WARNED. *)
Lemma program_shop_after_test1 :
  shop saleSubscriber refillSubscriber stockWarningSubscriber 0 "001" 1 true
    [stockLoggerSubscriber] [stockLoggerSubscriber] test1_sale3.
Proof.
  split; try (vm_compute; reflexivity); repeat constructor; by vm_compute.
Qed.

(** The program's second test is an instance. *)
Lemma C5_recovery_edge_witness :
  ∃ w1 w2,
    publish no_code 8 (MachineRefillEvent 2 "001") test1_sale3 = Normal tt w1
    ∧ shop saleSubscriber refillSubscriber stockWarningSubscriber 0 "001" 3 false
        [stockLoggerSubscriber] [stockLoggerSubscriber] w1
    ∧ enqueued (ghost w1)
      = enqueued (ghost test1_sale3)
        ++ [MachineRefillEvent 2 "001"; StockLevelOkEvent "001"]
    ∧ publish no_code 8 (MachineRefillEvent 5 "001") w1 = Normal tt w2
    ∧ shop saleSubscriber refillSubscriber stockWarningSubscriber 0 "001" 8 false
        [stockLoggerSubscriber] [stockLoggerSubscriber] w2
    ∧ enqueued (ghost w2) = enqueued (ghost w1) ++ [MachineRefillEvent 5 "001"].
Proof.
  assert (length [stockLoggerSubscriber] + length [stockLoggerSubscriber] + 6 ≤ 8)
    as Hn by (simpl; lia).
  exact (proj1 (C5_recovery_edge no_code 8 _ _ _ _ _ _ _ _ program_shop_after_test1 Hn)).
Defined.

(** ** Runs of the two loops *)

Lemma for_reaches_length custom pub a ev i w tr j w' :
  for_reaches custom pub a ev i w tr j w' → j = i + length tr.
Proof. induction 1; simpl; lia. Qed.

(** The [for] loop that comes to the end of the array returns. *)
Lemma for_reaches_done custom pub a ev i w tr j w1 :
  for_reaches custom pub a ev i w tr j w1 →
  handler_arrays (router w1) !! a ≫= (.!! j) = None →
  ∀ n, length tr < n → for_handlers custom pub n a i ev w = Normal tt w1.
Proof.
  intros Hr Hh. induction Hr as [i w|i w h0 r w1 tr j w' Hh0 Hn0 Hr IH];
    intros [|n] Hn; simpl in Hn; try lia; cbn [for_handlers].
  - by rewrite Hh.
  - rewrite Hh0, Hn0. apply IH; [done|lia].
Qed.

(** The [for] loop that comes to a handler that raises is left through
    that exception. *)
Lemma for_reaches_raise custom pub a ev i w tr j w1 h err w2 :
  for_reaches custom pub a ev i w tr j w1 →
  handler_arrays (router w1) !! a ≫= (.!! j) = Some h →
  handle custom pub h ev (log_call h ev w1) = Raise err w2 →
  ∀ n, length tr < n → for_handlers custom pub n a i ev w = Raise err w2.
Proof.
  intros Hr Hh He. induction Hr as [i w|i w h0 r w1 tr j w' Hh0 Hn0 Hr IH];
    intros [|n] Hn; simpl in Hn; try lia; cbn [for_handlers].
  - by rewrite Hh, He.
  - rewrite Hh0, Hn0. apply IH; [done..|lia].
Qed.

(** A turn of the [while] loop all of whose handlers return. *)
Lemma turn_dispatch custom pub ev q w tr w1 :
  turn custom pub ev (shift ev q w) tr w1 →
  ∀ n, length tr < n → dispatch custom pub n ev q w = Normal tt w1.
Proof.
  intros [Hnone|a tr' j w' Ha Hr Hend] n Hn; unfold dispatch.
  - by rewrite Hnone.
  - rewrite Ha. by apply (for_reaches_done _ _ _ _ _ _ _ _ _ Hr Hend).
Qed.

(** A [for] loop and a turn of the [while] loop that return have run
    as their trace tells. *)
Lemma for_handlers_reaches custom pub n a i ev w w1 :
  for_handlers custom pub n a i ev w = Normal tt w1 →
  ∃ j, for_reaches custom pub a ev i w (for_trace custom pub n a i ev w) j w1
       ∧ handler_arrays (router w1) !! a ≫= (.!! j) = None.
Proof.
  revert i w. induction n as [|n IH]; intros i w; [done|].
  cbn [for_handlers for_trace].
  destruct (handler_arrays (router w) !! a ≫= (.!! i)) as [h|] eqn:Hh.
  - destruct (handle custom pub h ev (log_call h ev w)) as [r w2|err w2|w2] eqn:He;
      [|done..].
    intros H. destruct (IH _ _ H) as (j & Hr & Hend). exists j. split; [|done].
    by eapply for_next.
  - intros [= <-]. exists i. split; [constructor|done].
Qed.

Lemma dispatch_turn custom pub n ev q w w1 :
  dispatch custom pub n ev q w = Normal tt w1 →
  turn custom pub ev (shift ev q w) (trace custom pub n ev (shift ev q w)) w1.
Proof.
  unfold dispatch, trace.
  destruct (_subscribers (router (shift ev q w)) !! type ev) as [a|] eqn:Ha.
  - intros H. destruct (for_handlers_reaches _ _ _ _ _ _ _ _ H) as (j & Hr & Hend).
    by eapply turn_run.
  - intros [= <-]. by apply turn_skip.
Qed.

(** What the code of a handler that returns has put on the queue once
    its result is pushed. *)
Lemma exec_emits p w r w' :
  exec pub_enq p w = Normal r w' →
  _eventQueue (router (push_result r w')) = _eventQueue (router w) ++ emits p
  ∧ enqueued (ghost (push_result r w')) = enqueued (ghost w) ++ emits p
  ∧ dequeued (ghost (push_result r w')) = dequeued (ghost w)
  ∧ calls (ghost (push_result r w')) = calls (ghost w).
Proof.
  revert w. induction p as [r0|err|e k IH|ty h k IH|ty h k IH|f k IH];
    intros w; cbn [exec pub_enq emits].
  - intros [= <- <-]. by rewrite push_result_add_events.
  - done.
  - intros H. destruct (IH _ H) as (-> & -> & -> & ->). simpl.
    by rewrite <- !app_assoc.
  - intros H. destruct (IH _ H) as (-> & -> & -> & ->). simpl.
    by rewrite subscribe_queue.
  - intros H. destruct (IH _ H) as (-> & -> & -> & ->). simpl.
    by rewrite unsubscribe_queue.
  - intros H. by destruct (IH _ H) as (-> & -> & -> & ->).
Qed.

Lemma handle_emits custom h ev w r w1 :
  handle custom pub_enq h ev (log_call h ev w) = Normal r w1 →
  _eventQueue (router (push_result r w1))
  = _eventQueue (router w) ++ emits_of custom h ev w
  ∧ enqueued (ghost (push_result r w1)) = enqueued (ghost w) ++ emits_of custom h ev w
  ∧ dequeued (ghost (push_result r w1)) = dequeued (ghost w)
  ∧ calls (ghost (push_result r w1)) = calls (ghost w) ++ [(h, ev)].
Proof.
  destruct h as [l|k]; cbn [handle emits_of].
  - cbn [log_call set_ghost store].
    destruct (object_handle l ev (store w)) as [r0 s]. intros [= <- <-].
    by rewrite push_result_add_events.
  - intros H. by apply exec_emits in H.
Qed.

(** What the handlers called in a run of the [for] loop produce goes to
    the tail of the queue, handler after handler; nothing is taken. *)
Lemma for_reaches_emits custom a ev i w tr j w' :
  for_reaches custom pub_enq a ev i w tr j w' →
  _eventQueue (router w') = _eventQueue (router w) ++ produced tr
  ∧ enqueued (ghost w') = enqueued (ghost w) ++ produced tr
  ∧ dequeued (ghost w') = dequeued (ghost w)
  ∧ calls (ghost w') = calls (ghost w) ++ ((λ x, (x.1, ev)) <$> tr).
Proof.
  induction 1 as [i w|i w h r w1 tr j w' Hh Hn Hr IH].
  - unfold produced. simpl. by rewrite !app_nil_r.
  - destruct IH as (-> & -> & -> & ->).
    destruct (handle_emits _ _ _ _ _ _ Hn) as (-> & -> & -> & ->).
    unfold produced. simpl. by rewrite <- !app_assoc.
Qed.




(** ** The order of dispatch *)



(** The order in which the events of [abc_world] are taken. *)
Example abc_order :
  dequeued (ghost (final (drain abc_code (publish abc_code 1) 4 abc_world)))
  = [ev_A; ev_B; ev_C].
Proof. vm_compute. reflexivity. Qed.


(** ** The guard in every state *)

Lemma guard_ok_sound w : guard_ok w → guard_sound w.
Proof. unfold guard_ok, guard_sound. intros ->. done. Qed.

Lemma guard_sound_new s :
  guard_sound {| router := new_PublishSubscribeService; store := s; ghost := no_ghost |}.
Proof. unfold guard_sound. simpl. lia. Qed.

Lemma guard_sound_subscribe ty h w :
  guard_sound w → guard_sound (set_router (subscribe ty h) w).
Proof. unfold guard_sound. simpl. by rewrite subscribe_guard. Qed.

Lemma guard_sound_unsubscribe ty h w :
  guard_sound w → guard_sound (set_router (unsubscribe ty h) w).
Proof. unfold guard_sound. simpl. by rewrite unsubscribe_guard. Qed.

(** What a call of [publish] leaves behind, by the way it ends, in every
    state the router can be in. *)
Lemma publish_sound custom n e w :
  guard_sound w →
  match publish custom n e w with
  | Normal _ w' =>
      guard_sound w'
      ∧ (_isPublishing (router w) = false →
           _isPublishing (router w') = false ∧ drains (ghost w') = 0)
  | Timeout w' => guard_sound w'
  | Raise _ w' =>
      _isPublishing (router w) = false ∧
      _isPublishing (router w') = true ∧ drains (ghost w') = 0
  end.
Proof.
  unfold guard_sound. intros Hw. destruct n as [|[|n]]; [done| |].
  - rewrite publish_S. destruct (_isPublishing (router w)) eqn:Hg; simpl.
    + by rewrite Hg.
    + lia.
  - destruct (_isPublishing (router w)) eqn:Hg.
    + rewrite publish_reentrant by done. simpl. by rewrite Hg.
    + rewrite publish_top by done.
      assert (_isPublishing (router (enter_drain (enqueue e w))) = true ∧
              drains (ghost (enter_drain (enqueue e w))) = 1) as Hpre
        by (simpl; split; [done|lia]).
      pose proof (drain_closed custom _ draining_closed (S n) _ Hpre) as Hd.
      cbv beta in Hd.
      destruct (drain custom pub_enq (S n) (enter_drain (enqueue e w)))
        as [[] w2|err w2|w2]; simpl in *; destruct Hd as [Hg2 Hd2];
        rewrite ?Hg2, ?Hd2; done.
Qed.

(** C2, amended.  In every state the router can be in ([fifo] and
    [guard_sound] hold for a new router and are kept by every call of
    its three methods, also by a call of [publish] that is left through
    an exception): a call of [publish] first enqueues the event.  If the guard is set, it returns at once: the
    event is at the tail of the queue, nothing is taken and no handler
    is called.  If the guard is clear, the caller drains the queue, and
    when the call returns the queue is empty, every event enqueued so far
    has been taken and the guard is clear again.  Never do two [while]
    loops run.  As long as the calls of [publish] return or are still
    running, the guard is set exactly while a loop runs.  A call that is
    left through a handler's exception leaves the guard set although no
    loop runs any more, and from then on every call only enqueues. *)
Theorem C2_publish_guard custom e w :
  fifo w →
  guard_sound w →
  (∀ n, ∃ rest, enqueued (ghost (final (publish custom (S n) e w)))
                = enqueued (ghost w) ++ e :: rest)
  ∧ (_isPublishing (router w) = true →
       ∀ n, publish custom (S n) e w = Normal tt (enqueue e w)
            ∧ _eventQueue (router (enqueue e w)) = _eventQueue (router w) ++ [e]
            ∧ dequeued (ghost (enqueue e w)) = dequeued (ghost w)
            ∧ calls (ghost (enqueue e w)) = calls (ghost w)
            ∧ _isPublishing (router (enqueue e w)) = true)
  ∧ (_isPublishing (router w) = false →
       ∀ n w', publish custom n e w = Normal tt w' →
         _eventQueue (router w') = [] ∧ _isPublishing (router w') = false
         ∧ drains (ghost w') = 0
         ∧ ∃ rest, dequeued (ghost w') = enqueued (ghost w) ++ e :: rest)
  ∧ (∀ n, fifo (final (publish custom n e w))
          ∧ guard_sound (final (publish custom n e w))
          ∧ drains (ghost (final (publish custom n e w))) ≤ 1)
  ∧ (guard_ok w →
     ∀ n w', publish custom n e w = Normal tt w' ∨ publish custom n e w = Timeout w' →
       guard_ok w')
  ∧ (∀ n err w', publish custom n e w = Raise err w' →
       _isPublishing (router w) = false
       ∧ _isPublishing (router w') = true
       ∧ drains (ghost w') = 0
       ∧ ¬ guard_ok w'
       ∧ ∀ k e', publish custom (S k) e' w' = Normal tt (enqueue e' w'))
  ∧ (∀ ty h, fifo (set_router (subscribe ty h) w)
             ∧ guard_sound (set_router (subscribe ty h) w)
             ∧ fifo (set_router (unsubscribe ty h) w)
             ∧ guard_sound (set_router (unsubscribe ty h) w))
  ∧ (∀ s, fifo {| router := new_PublishSubscribeService; store := s;
                  ghost := no_ghost |}
          ∧ guard_sound {| router := new_PublishSubscribeService; store := s;
                           ghost := no_ghost |}).
Proof.
  intros Hf Hw.
  assert (∀ n, ∃ rest, enqueued (ghost (final (publish custom (S n) e w)))
                       = enqueued (ghost w) ++ e :: rest) as Hfirst.
  { intros n. destruct (_isPublishing (router w)) eqn:Hg.
    - rewrite publish_reentrant by done. by exists [].
    - destruct n as [|n].
      + rewrite publish_S, Hg. by exists [].
      + rewrite publish_top by done.
        destruct (drain_closed custom _ (grows_closed (enqueued (ghost w) ++ [e]))
                    (S n) (enter_drain (enqueue e w))) as [rest Hrest];
          [exists []; simpl; by rewrite app_nil_r|].
        exists rest. cbv beta in Hrest. rewrite <- app_assoc in Hrest.
        change ([e] ++ rest) with (e :: rest) in Hrest.
        by destruct (drain custom pub_enq (S n) (enter_drain (enqueue e w)))
          as [[] w2|err w2|w2]. }
  split; [done|]. split; [|split; [|split; [|split; [|split; [|split]]]]].
  - intros Hg n. split; [by apply publish_reentrant|]. simpl. by rewrite Hg.
  - intros Hg n w' Hp.
    pose proof (publish_sound custom n e w Hw) as Hs. rewrite Hp in Hs.
    destruct Hs as [_ Hs]. destruct (Hs Hg) as [Hg' Hd'].
    pose proof (publish_fifo custom n e w Hf) as Hf'. rewrite Hp in Hf'.
    unfold fifo in Hf'. simpl in Hf'.
    destruct n as [|n]; [done|].
    destruct (Hfirst n) as [rest Hrest]. rewrite Hp in Hrest. simpl in Hrest.
    assert (_eventQueue (router w') = []) as Hq.
    { destruct n as [|n].
      - by rewrite publish_S, Hg in Hp.
      - rewrite publish_top in Hp by done.
        destruct (drain custom pub_enq (S n) (enter_drain (enqueue e w)))
          as [[] w2|err w2|w2] eqn:Hd; [|done..].
        injection Hp as <-. apply drain_normal_empty in Hd. by rewrite <- Hd. }
    split_and!; try done. exists rest.
    by rewrite <- Hrest, Hf', Hq, app_nil_r.
  - intros n. pose proof (publish_sound custom n e w Hw) as H.
    pose proof (publish_fifo custom n e w Hf) as Hf'.
    split; [done|]. unfold guard_sound in *.
    destruct (publish custom n e w) as [[] w'|err w'|w']; simpl.
    + destruct H as [H _]. split; [done|]. destruct (_isPublishing (router w')); lia.
    + destruct H as (_ & -> & ->). lia.
    + split; [done|]. destruct (_isPublishing (router w')); lia.
  - intros Hok n w' H. pose proof (publish_guard custom n e w Hok) as Hp.
    by destruct H as [H|H]; rewrite H in Hp.
  - intros n err w' Hp. pose proof (publish_sound custom n e w Hw) as H.
    rewrite Hp in H. destruct H as (Hg & Hg' & Hd').
    split_and!; try done.
    + unfold guard_ok. rewrite Hg', Hd'. done.
    + intros k e'. by apply publish_reentrant.
  - intros ty h. split_and!.
    + by apply (closed_subscribe _ (closed_handler _ fifo_closed)).
    + by apply guard_sound_subscribe.
    + by apply (closed_unsubscribe _ (closed_handler _ fifo_closed)).
    + by apply guard_sound_unsubscribe.
  - intros s. split; [reflexivity|apply guard_sound_new].
Qed.

(** Three states: a router at rest, whose call of [publish] drains the
    queue and clears the guard; a router whose handler throws, whose
    call leaves the guard set; and the state after that exception, where
    [guard_ok] fails, the theorem still applies and a call only
    enqueues. *)
Lemma C2_publish_guard_witness :
  (∃ w', publish abc_code 5 ev_A rest_world = Normal tt w'
         ∧ _eventQueue (router w') = []
         ∧ _isPublishing (router w') = false
         ∧ drains (ghost w') = 0
         ∧ ∃ rest, dequeued (ghost w') = enqueued (ghost rest_world) ++ ev_A :: rest)
  ∧ (publish boom_code 3 (OtherEvent "x" "001") boom_world = Raise "boom" after_boom
     ∧ _isPublishing (router boom_world) = false
     ∧ _isPublishing (router after_boom) = true
     ∧ drains (ghost after_boom) = 0
     ∧ ¬ guard_ok after_boom
     ∧ ∀ k e', publish boom_code (S k) e' after_boom = Normal tt (enqueue e' after_boom))
  ∧ (fifo after_boom
     ∧ guard_sound after_boom
     ∧ ∀ n, publish boom_code (S n) (OtherEvent "x" "002") after_boom
            = Normal tt (enqueue (OtherEvent "x" "002") after_boom)
            ∧ _eventQueue (router (enqueue (OtherEvent "x" "002") after_boom))
              = _eventQueue (router after_boom) ++ [OtherEvent "x" "002"]
            ∧ dequeued (ghost (enqueue (OtherEvent "x" "002") after_boom))
              = dequeued (ghost after_boom)
            ∧ calls (ghost (enqueue (OtherEvent "x" "002") after_boom))
              = calls (ghost after_boom)
            ∧ _isPublishing (router (enqueue (OtherEvent "x" "002") after_boom)) = true).
Proof.
  assert (guard_sound rest_world) as Hs1 by (vm_compute; lia).
  assert (guard_sound boom_world) as Hs2 by (vm_compute; lia).
  assert (guard_sound after_boom) as Hs3 by (vm_compute; lia).
  assert (fifo after_boom) as Hf3 by (vm_compute; reflexivity).
  split; [|split].
  - destruct (C2_publish_guard abc_code ev_A rest_world eq_refl Hs1)
      as (_ & _ & Hclear & _).
    exists (final (publish abc_code 5 ev_A rest_world)).
    assert (publish abc_code 5 ev_A rest_world
            = Normal tt (final (publish abc_code 5 ev_A rest_world))) as Hp
      by (vm_compute; reflexivity).
    exact (conj Hp (Hclear eq_refl 5 _ Hp)).
  - destruct (C2_publish_guard boom_code (OtherEvent "x" "001") boom_world eq_refl Hs2)
      as (_ & _ & _ & _ & _ & Hraise & _).
    assert (publish boom_code 3 (OtherEvent "x" "001") boom_world
            = Raise "boom" after_boom) as Hp by (vm_compute; reflexivity).
    exact (conj Hp (Hraise 3 "boom" after_boom Hp)).
  - destruct (C2_publish_guard boom_code (OtherEvent "x" "002") after_boom Hf3 Hs3)
      as (_ & Hset & _).
    exact (conj Hf3 (conj Hs3 (Hset eq_refl))).
Defined.

(** A call of [publish] on the router at rest: the event and the event
    its handler returns are taken, the handler is called once. *)
Example rest_world_publish :
  dequeued (ghost (final (publish abc_code 5 ev_A rest_world))) = [ev_A; ev_C]
  ∧ calls (ghost (final (publish abc_code 5 ev_A rest_world))) = [(Ext 0, ev_A)].
Proof. vm_compute. done. Qed.

(** C2 as stated fails after a handler has thrown: the call of [publish]
    is over and no loop runs, but the guard is still set; the next call,
    made while no drain is active, does not drain: it returns with its
    event left in the queue and no handler called. *)
Lemma C2_counterexample :
  publish boom_code 3 (OtherEvent "x" "001") boom_world = Raise "boom" after_boom
  ∧ drains (ghost after_boom) = 0
  ∧ _isPublishing (router after_boom) = true
  ∧ handlers_of "x" (router after_boom) = [Ext 0]
  ∧ ∃ w2, publish boom_code 3 (OtherEvent "x" "002") after_boom = Normal tt w2
          ∧ _eventQueue (router w2) = [OtherEvent "x" "002"]
          ∧ calls (ghost w2) = calls (ghost after_boom)
          ∧ _isPublishing (router w2) = true.
Proof.
  split_and!; try (vm_compute; reflexivity).
  eexists. split_and!; vm_compute; reflexivity.
Qed.

(** ** A handler that raises *)

(** The [while] loop that comes to an event one of whose handlers raises
    is left through that exception, whichever event of the queue it
    is. *)
Lemma while_reaches_raise custom pub w v ev q a tr i v1 h err v2 :
  while_reaches custom pub w v →
  _eventQueue (router v) = ev :: q →
  _subscribers (router v) !! type ev = Some a →
  for_reaches custom pub a ev 0 (shift ev q v) tr i v1 →
  handler_arrays (router v1) !! a ≫= (.!! i) = Some h →
  handle custom pub h ev (log_call h ev v1) = Raise err v2 →
  ∃ n0, ∀ n, n0 ≤ n → drain custom pub n w = Raise err v2.
Proof.
  intros Hw Hq Ha Hr Hh He.
  induction Hw as [w|w e q' tr' w1 w' Hq' Hturn Hw IH].
  - exists (S (S (length tr))). intros [|n] Hn; [lia|]. cbn [drain]. rewrite Hq.
    unfold dispatch.
    change (_subscribers (router (shift ev q w))) with (_subscribers (router w)).
    rewrite Ha.
    by rewrite (for_reaches_raise _ _ _ _ _ _ _ _ _ _ _ _ Hr Hh He) by lia.
  - destruct (IH Hq Ha Hr) as [n0 Hn0]. exists (S (n0 + S (length tr'))).
    intros [|n] Hn; [lia|]. cbn [drain]. rewrite Hq'.
    rewrite (turn_dispatch _ _ _ _ _ _ _ Hturn) by lia.
    apply Hn0. lia.
Qed.

(** A handler's code does not touch the record of the calls. *)
Lemma exec_calls p w :
  calls (ghost (final (exec pub_enq p w))) = calls (ghost w).
Proof.
  revert w. induction p as [r|err|e k IH|ty h k IH|ty h k IH|f k IH];
    intros w; simpl; try done; by rewrite IH.
Qed.

Lemma handle_calls custom h ev w :
  calls (ghost (final (handle custom pub_enq h ev w))) = calls (ghost w).
Proof.
  destruct h as [l|k]; simpl.
  - by destruct (object_handle l ev (store w)).
  - apply exec_calls.
Qed.

(** While the handlers of one event run, the queue only grows at its
    tail. *)
Lemma tail_closed q0 : handler_closed (λ w, ∃ rest, _eventQueue (router w) = q0 ++ rest).
Proof.
  split; simpl; try done.
  - intros e w [rest ->]. exists (rest ++ [e]). by rewrite app_assoc.
  - intros ty h w [rest Hq]. exists rest. by rewrite subscribe_queue.
  - intros ty h w [rest Hq]. exists rest. by rewrite unsubscribe_queue.
Qed.

(** C3, amended.  Let a call of [publish] find the guard clear and start
    the [while] loop, let the loop take some events, all of whose
    handlers return, and come to an event [ev], the first or a later one
    of the queue, and let the [for] loop for [ev] come, after the
    handlers of the trace [tr], which return, to a handler that throws
    [err].  Then the call of [publish] is left through [err] as it is:
    nothing catches it, no further handler is called, and the events
    behind [ev] stay in the queue.  The guard is not released:
    [_isPublishing] stays set although no loop runs any more, and every
    later call of [publish] only enqueues its event and returns.  The
    same holds of every call left through an exception. *)
Theorem C3_handler_failure custom e0 w v ev q a tr i v1 h err v2 :
  guard_sound w →
  _isPublishing (router w) = false →
  while_reaches custom pub_enq (enter_drain (enqueue e0 w)) v →
  _eventQueue (router v) = ev :: q →
  _subscribers (router v) !! type ev = Some a →
  for_reaches custom pub_enq a ev 0 (shift ev q v) tr i v1 →
  handler_arrays (router v1) !! a ≫= (.!! i) = Some h →
  handle custom pub_enq h ev (log_call h ev v1) = Raise err v2 →
  (∃ n0, ∀ n, n0 ≤ n → publish custom n e0 w = Raise err (leave_drain v2))
  ∧ _isPublishing (router (leave_drain v2)) = true
  ∧ drains (ghost (leave_drain v2)) = 0
  ∧ calls (ghost (leave_drain v2))
    = calls (ghost v) ++ ((λ x, (x.1, ev)) <$> tr) ++ [(h, ev)]
  ∧ (∃ rest, _eventQueue (router (leave_drain v2)) = q ++ rest)
  ∧ (∀ k e', publish custom (S k) e' (leave_drain v2)
             = Normal tt (enqueue e' (leave_drain v2)))
  ∧ (∀ n err' w', publish custom n e0 w = Raise err' w' →
       _isPublishing (router w') = true
       ∧ drains (ghost w') = 0
       ∧ ∀ k e', publish custom (S k) e' w' = Normal tt (enqueue e' w')).
Proof.
  intros Hs Hg Hw Hq Ha Hr Hh He.
  assert (∀ n err' w', publish custom n e0 w = Raise err' w' →
            _isPublishing (router w') = true ∧ drains (ghost w') = 0) as Hleft.
  { intros n err' w' Hp. pose proof (publish_sound custom n e0 w Hs) as H.
    rewrite Hp in H. by destruct H as (_ & ? & ?). }
  destruct (while_reaches_raise _ _ _ _ _ _ _ _ _ _ _ _ _ Hw Hq Ha Hr Hh He)
    as [n0 Hn0].
  assert (∀ n, S (S n0) ≤ n → publish custom n e0 w = Raise err (leave_drain v2))
    as Hp.
  { intros [|[|n]] Hn; try lia. rewrite publish_top by done.
    by rewrite Hn0 by lia. }
  destruct (Hleft _ _ _ (Hp (S (S n0)) (le_n _))) as [Hg2 Hd2].
  split; [by exists (S (S n0))|]. split; [done|]. split; [done|].
  split; [|split; [|split]].
  - pose proof (handle_calls custom h ev (log_call h ev v1)) as Hc.
    rewrite He in Hc. apply for_reaches_emits in Hr as (_ & _ & _ & Hc1).
    simpl in *. by rewrite Hc, Hc1, <- app_assoc.
  - assert (∃ rest, _eventQueue (router (shift ev q v)) = q ++ rest) as H0
      by (exists []; simpl; by rewrite app_nil_r).
    pose proof (for_handlers_closed custom _ (tail_closed q) (S (length tr)) a 0 ev _ H0)
      as H.
    by rewrite (for_reaches_raise _ _ _ _ _ _ _ _ _ _ _ _ Hr Hh He) in H by lia.
  - intros k e'. by apply publish_reentrant.
  - intros n err' w' Hp'. destruct (Hleft _ _ _ Hp') as [Hg' Hd'].
    split_and!; try done. intros k e'. by apply publish_reentrant.
Qed.

(** The event published has one handler, which returns a second event;
    the second handler of that second event throws. *)
Lemma C3_handler_failure_witness :
  (∃ n0, ∀ n, n0 ≤ n →
     publish late_code n (OtherEvent "x" "001") late_world = Raise "late" after_late)
  ∧ _isPublishing (router after_late) = true
  ∧ drains (ghost after_late) = 0
  ∧ calls (ghost after_late)
    = [(Ext 0, OtherEvent "x" "001"); (Ext 1, OtherEvent "y" "001");
       (Ext 2, OtherEvent "y" "001")]
  ∧ (∀ k e', publish late_code (S k) e' after_late = Normal tt (enqueue e' after_late)).
Proof.
  pose (w0 := enter_drain (enqueue (OtherEvent "x" "001") late_world)).
  pose (v := final (dispatch late_code pub_enq 2 (OtherEvent "x" "001") [] w0)).
  pose (v1 := final (for_handlers late_code pub_enq 1 1 0 (OtherEvent "y" "001")
                       (shift (OtherEvent "y" "001") [] v))).
  pose (v2 := final (handle late_code pub_enq (Ext 2) (OtherEvent "y" "001")
                       (log_call (Ext 2) (OtherEvent "y" "001") v1))).
  assert (guard_sound late_world) as Hs by (vm_compute; lia).
  assert (dispatch late_code pub_enq 2 (OtherEvent "x" "001") [] w0 = Normal tt v)
    as Hturn by (vm_compute; reflexivity).
  apply dispatch_turn in Hturn.
  assert (while_reaches late_code pub_enq w0 v) as Hw.
  { eapply while_next; [|exact Hturn|apply while_here]. reflexivity. }
  assert (_eventQueue (router v) = [OtherEvent "y" "001"]) as Hq
    by (vm_compute; reflexivity).
  assert (_subscribers (router v) !! type (OtherEvent "y" "001") = Some 1) as Ha
    by (vm_compute; reflexivity).
  assert (for_reaches late_code pub_enq 1 (OtherEvent "y" "001") 0
            (shift (OtherEvent "y" "001") [] v) [(Ext 1, [])] 1 v1) as Hr.
  { apply (for_next late_code pub_enq 1 (OtherEvent "y" "001") 0
             (shift (OtherEvent "y" "001") [] v) (Ext 1) RVoid v1 [] 1 v1);
      [vm_compute; reflexivity|vm_compute; reflexivity|apply for_here]. }
  assert (handler_arrays (router v1) !! 1 ≫= (.!! 1) = Some (Ext 2)) as Hh
    by (vm_compute; reflexivity).
  assert (handle late_code pub_enq (Ext 2) (OtherEvent "y" "001")
            (log_call (Ext 2) (OtherEvent "y" "001") v1) = Raise "late" v2) as He
    by (vm_compute; reflexivity).
  destruct (C3_handler_failure late_code (OtherEvent "x" "001") late_world v
              (OtherEvent "y" "001") [] 1 _ 1 v1 (Ext 2) "late" v2
              Hs eq_refl Hw Hq Ha Hr Hh He)
    as (Hp & Hg & Hd & Hc & _ & Hlater & _).
  assert (leave_drain v2 = after_late) as E by (vm_compute; reflexivity).
  assert (calls (ghost v) = [(Ext 0, OtherEvent "x" "001")]) as Ev
    by (vm_compute; reflexivity).
  rewrite E in Hp, Hg, Hd, Hc, Hlater. rewrite Ev in Hc.
  exact (conj Hp (conj Hg (conj Hd (conj Hc Hlater)))).
Defined.

(** C3 as stated fails: the handler's exception reaches the caller, but
    the guard is not released.  The event returned by the first handler
    stays in the queue, and a later call of [publish] starts no drain: no
    handler is called for its event. *)
Lemma C3_counterexample :
  publish fail_code 4 (OtherEvent "x" "001") fail_world = Raise "boom" after_fail
  ∧ _isPublishing (router after_fail) = true
  ∧ _eventQueue (router after_fail) = [OtherEvent "y" "001"]
  ∧ calls (ghost (final (publish fail_code 4 (OtherEvent "x" "002") after_fail)))
    = calls (ghost after_fail)
  ∧ _eventQueue (router (final (publish fail_code 4 (OtherEvent "x" "002") after_fail)))
    = [OtherEvent "y" "001"; OtherEvent "x" "002"].
Proof. split_and!; vm_compute; reflexivity. Qed.
